(** * Liaison MCP server: task registry, admission and lifecycle engine

    A shallow embedding of [packages/mcp-liaison/src/index.ts].

    The server is a single-threaded JavaScript program.  Its state is the
    [tasks] map of the [LiaisonServer] object, the task objects that map
    refers to, and the suspended [processTask] coroutines.  Task objects are
    shared: the [delegate] handler, the map and the coroutine all hold the same
    reference, so objects live in a store ([heap]) and are named by their
    location.

    Every handler and every continuation of a coroutine runs without
    interruption until it returns or reaches its next [await]; such a run is
    one [Event] below.  Each event carries the value of the clock
    ([new Date()], [Date.now()]) during the run, in milliseconds; the clock is
    read as one instant per run.  The identifier drawn by [randomUUID] is an
    input of the event as well. *)

From Stdlib Require Import ZArith String Ascii DecimalString Decimal.
From stdpp Require Import base tactics option list sorting strings.
From Stdlib Require Import Lia.

Local Open Scope string_scope.
Local Open Scope Z_scope.

(** ** Data model *)

Inductive TaskStatus : Set :=
  | PENDING
  | IN_PROGRESS
  | COMPLETED
  | FAILED
  | CANCELLED.

#[global] Instance TaskStatus_eq_dec : EqDecision TaskStatus.
Proof. solve_decision. Defined.

(** The string value of each member of the enum. *)
Definition TaskStatus_value (s : TaskStatus) : string :=
  match s with
  | PENDING => "pending"
  | IN_PROGRESS => "in_progress"
  | COMPLETED => "completed"
  | FAILED => "failed"
  | CANCELLED => "cancelled"
  end.

(** [interface TaskState].  Dates are milliseconds since the epoch; an
    optional property that is absent is [None].  A string is the sequence of
    its code units, which is what [length] and [substring] count. *)
Record TaskState : Set := mkTaskState {
  id : string;
  task : string;
  context : option string;
  status : TaskStatus;
  createdAt : Z;
  updatedAt : Z;
  startedAt : option Z;
  completedAt : option Z;
  result : option string;
  error : option string;
  progress : option Z;
}.

#[global] Instance TaskState_eq_dec : EqDecision TaskState.
Proof. solve_decision. Defined.

#[global] Instance TaskState_inhabited : Inhabited TaskState :=
  populate (mkTaskState "" "" None PENDING 0 0 None None None None None).

(** Assignments to a property of a task object. *)
Definition set_status (v : TaskStatus) (t : TaskState) : TaskState :=
  mkTaskState (id t) (task t) (context t) v (createdAt t) (updatedAt t)
    (startedAt t) (completedAt t) (result t) (error t) (progress t).
Definition set_updatedAt (v : Z) (t : TaskState) : TaskState :=
  mkTaskState (id t) (task t) (context t) (status t) (createdAt t) v
    (startedAt t) (completedAt t) (result t) (error t) (progress t).
Definition set_startedAt (v : Z) (t : TaskState) : TaskState :=
  mkTaskState (id t) (task t) (context t) (status t) (createdAt t) (updatedAt t)
    (Some v) (completedAt t) (result t) (error t) (progress t).
Definition set_completedAt (v : Z) (t : TaskState) : TaskState :=
  mkTaskState (id t) (task t) (context t) (status t) (createdAt t) (updatedAt t)
    (startedAt t) (Some v) (result t) (error t) (progress t).
Definition set_result (v : string) (t : TaskState) : TaskState :=
  mkTaskState (id t) (task t) (context t) (status t) (createdAt t) (updatedAt t)
    (startedAt t) (completedAt t) (Some v) (error t) (progress t).
Definition set_error (v : string) (t : TaskState) : TaskState :=
  mkTaskState (id t) (task t) (context t) (status t) (createdAt t) (updatedAt t)
    (startedAt t) (completedAt t) (result t) (Some v) (progress t).
Definition set_progress (v : Z) (t : TaskState) : TaskState :=
  mkTaskState (id t) (task t) (context t) (status t) (createdAt t) (updatedAt t)
    (startedAt t) (completedAt t) (result t) (error t) (Some v).

(** [interface LiaisonConfig], after the defaults have been merged in
    ([Required<LiaisonConfig>]). *)
Record LiaisonConfig : Set := mkConfig {
  maxConcurrentTasks : Z;
  taskTimeoutMs : Z;
  maxTaskDescriptionLength : Z;
  maxContextLength : Z;
}.

Definition DEFAULT_CONFIG : LiaisonConfig :=
  mkConfig 10 300000 5000 50000.

(** ** JavaScript library functions used by the server *)

(** Template-literal conversion of an integral number (decimal digits, as
    JavaScript prints every integer below 10^21). *)
Definition Number_toString (n : Z) : string :=
  NilZero.string_of_int (Z.to_int n).

(** [s.substring(0, n)] for a constant [n >= 0]. *)
Definition substring_0 (n : nat) (s : string) : string :=
  String.substring 0 n s.

(** A string is truthy when it is not empty. *)
Definition truthy (s : option string) : option string :=
  match s with
  | Some "" => None
  | other => other
  end.

(** [Array.prototype.sort(cmp)]: the sort is stable, and [a] stays in front
    of [b] unless [cmp(a, b) > 0].  For a comparator that is a total preorder
    the result is the one of the insertion sort below. *)
Section Sort.
Context {A : Type} (cmp : A → A → Z).

Fixpoint sort_insert (x : A) (l : list A) : list A :=
  match l with
  | [] => [x]
  | y :: l' => if cmp x y <=? 0 then x :: y :: l' else y :: sort_insert x l'
  end.

Fixpoint Array_sort (l : list A) : list A :=
  match l with
  | [] => []
  | x :: l' => sort_insert x (Array_sort l')
  end.
End Sort.

(** The comparators of the server all have the shape
    [(a, b) => key(b) - key(a)]: descending order of the key. *)
Definition descending {A : Type} (key : A → Z) (a b : A) : Z := key b - key a.

(** [a] may stand in front of [b] in descending order of the key. *)
Definition before {A : Type} (key : A → Z) (a b : A) : Prop := key b ≤ key a.

(** [Array.prototype.slice(start, end)] with integral arguments: a negative
    index counts from the end, and both are clamped to the array. *)
Definition slice_index (len i : Z) : Z :=
  if i <? 0 then Z.max (len + i) 0 else Z.min i len.

Definition Array_slice {A : Type} (start end_ : Z) (l : list A) : list A :=
  let len := Z.of_nat (length l) in
  let k := slice_index len start in
  let final := slice_index len end_ in
  take (Z.to_nat (final - k)) (drop (Z.to_nat k) l).

(** [slice(start)] with the end omitted. *)
Definition Array_slice_from {A : Type} (start : Z) (l : list A) : list A :=
  Array_slice start (Z.of_nat (length l)) l.

(** [Math.round(((i + 1) / steps) * 100)], on exact rationals: rounding to the
    nearest integer, halves upwards. *)
Definition round_percent (done total : Z) : Z :=
  (2 * (done * 100) + total) / (2 * total).

(** ** The server state *)

(** A reference to a task object. *)
Definition loc : Set := nat.

(** [Map<string, TaskState>]: entries in insertion order, one per key; the
    values are references. *)
Abbreviation TaskMap := (list (string * loc)).

Fixpoint Map_get (m : TaskMap) (k : string) : option loc :=
  match m with
  | [] => None
  | (k', v) :: m' => if String.eqb k' k then Some v else Map_get m' k
  end.

(** [set] on a present key replaces the value and keeps the position. *)
Fixpoint Map_set (m : TaskMap) (k : string) (v : loc) : TaskMap :=
  match m with
  | [] => [(k, v)]
  | (k', v') :: m' =>
      if String.eqb k' k then (k', v) :: m' else (k', v') :: Map_set m' k v
  end.

Fixpoint Map_delete (m : TaskMap) (k : string) : TaskMap :=
  match m with
  | [] => []
  | (k', v') :: m' =>
      if String.eqb k' k then m' else (k', v') :: Map_delete m' k
  end.

(** A [processTask] call is suspended in the [await] of iteration [i] of its
    loop, or has returned. *)
Inductive Pc : Set :=
  | Awaiting (i : nat)
  | Returned.

(** The locals of a [processTask] call: its argument, the reference [task]
    it read from the map when it started, and where it is. *)
Record Coroutine : Set := mkCoroutine {
  co_taskId : string;
  co_task : loc;
  co_pc : Pc;
}.

Record Server : Set := mkServer {
  heap : list TaskState;
  tasks : TaskMap;
  engines : list Coroutine;
}.

(** [new LiaisonServer(config)]. *)
Definition init : Server := mkServer [] [] [].

(** Reading through a reference, and assigning to a property of the object
    it denotes.  A reference always denotes an allocated object ([wf] below);
    outside the store a read yields the default object and an assignment does
    nothing. *)
Definition deref (st : Server) (l : loc) : TaskState := heap st !!! l.

Definition write (l : loc) (f : TaskState → TaskState) (st : Server) : Server :=
  mkServer (alter f l (heap st)) (tasks st) (engines st).

(** [new] of an object literal. *)
Definition alloc (t : TaskState) (st : Server) : loc * Server :=
  (length (heap st), mkServer (heap st ++ [t]) (tasks st) (engines st)).

(** [Array.from(this.tasks.values())] and [Array.from(this.tasks.entries())]. *)
Definition Map_values (st : Server) : list TaskState :=
  (λ e, deref st e.2) <$> tasks st.

Definition Map_entries (st : Server) : list (string * TaskState) :=
  (λ e, (e.1, deref st e.2)) <$> tasks st.

(** [this.tasks.get(taskId)]. *)
Definition tasks_get (st : Server) (taskId : string) : option TaskState :=
  deref st <$> Map_get (tasks st) taskId.

Definition is_active (t : TaskState) : Prop :=
  status t = IN_PROGRESS ∨ status t = PENDING.

Definition is_terminal (t : TaskState) : Prop :=
  status t = COMPLETED ∨ status t = FAILED ∨ status t = CANCELLED.

#[global] Instance is_active_dec t : Decision (is_active t).
Proof. unfold is_active. apply _. Defined.

#[global] Instance is_terminal_dec t : Decision (is_terminal t).
Proof. unfold is_terminal. apply _. Defined.

Definition getActiveTaskCount (st : Server) : Z :=
  Z.of_nat (length (filter is_active (Map_values st))).

Definition generateTaskId (uuid : string) : string := "task-" ++ uuid.

(** ** cleanupOldTasks *)

(** The local [completedTasks]: the entries in a terminal state, most
    recently updated first. *)
Definition cleanup_completedTasks (st : Server) : list (string * TaskState) :=
  Array_sort (λ a b, updatedAt b.2 - updatedAt a.2)
    (filter (λ e, is_terminal e.2) (Map_entries st)).

Definition cleanupOldTasks (st : Server) : Server :=
  let completedTasks := cleanup_completedTasks st in
  if 100 <? Z.of_nat (length completedTasks) then
    let toRemove := Array_slice_from 100 completedTasks in
    mkServer (heap st)
      (foldl (λ m e, Map_delete m e.1) (tasks st) toRemove)
      (engines st)
  else st.

(** ** processTask *)

Definition steps : nat := 5.

Definition simulated_result : string := "Task completed successfully (simulated)".

Definition timeout_message (config : LiaisonConfig) : string :=
  "Task exceeded timeout of " ++ Number_toString (taskTimeoutMs config) ++ "ms".

(** What the [try] block raises between the loop and the completion:
    the message of the error, if any. *)
Definition check_timeout (config : LiaisonConfig) (now : Z) (t : TaskState)
  : option string :=
  match startedAt t with
  | None => Some "Cannot read properties of undefined (reading 'getTime')"
  | Some started =>
      let elapsed := now - started in
      if taskTimeoutMs config <? elapsed then Some (timeout_message config)
      else None
  end.

(** The coroutine from the head of iteration [i] of the loop up to its next
    [await] or its return. *)
Definition loop_head (config : LiaisonConfig) (taskId : string) (l : loc)
    (i : nat) (now : Z) (st : Server) : Server * Pc :=
  if (i <? steps)%nat then
    match tasks_get st taskId with
    | None => (st, Returned)
    | Some currentTask =>
        if decide (status currentTask = CANCELLED) then (st, Returned)
        else (st, Awaiting i)
    end
  else
    match check_timeout config now (deref st l) with
    | Some message =>
        (* catch (error) *)
        let st := write l (set_status FAILED) st in
        let st := write l (set_completedAt now) st in
        let st := write l (set_updatedAt now) st in
        let st := write l (set_error message) st in
        (st, Returned)
    | None =>
        let st := write l (set_status COMPLETED) st in
        let st := write l (set_completedAt now) st in
        let st := write l (set_updatedAt now) st in
        let st := write l (set_progress 100) st in
        let st := write l (set_result simulated_result) st in
        (st, Returned)
    end.

(** The continuation of the [await] of iteration [i]. *)
Definition after_await (config : LiaisonConfig) (taskId : string) (l : loc)
    (i : nat) (now : Z) (st : Server) : Server * Pc :=
  let st := write l (set_progress (round_percent (Z.of_nat i + 1) (Z.of_nat steps))) st in
  let st := write l (set_updatedAt now) st in
  loop_head config taskId l (S i) now st.

(** The call [this.processTask(taskId)]: the body runs up to its first
    [await] before the call returns its promise. *)
Definition processTask (config : LiaisonConfig) (taskId : string) (now : Z)
    (st : Server) : Server :=
  match Map_get (tasks st) taskId with
  | None => st
  | Some l =>
      let st := write l (set_status IN_PROGRESS) st in
      let st := write l (set_startedAt now) st in
      let st := write l (set_updatedAt now) st in
      let st := write l (set_progress 0) st in
      let '(st, pc) := loop_head config taskId l 0 now st in
      mkServer (heap st) (tasks st) (engines st ++ [mkCoroutine taskId l pc])
  end.

(** The timer of the [await] of coroutine [e] fires. *)
Definition timer (config : LiaisonConfig) (e : nat) (now : Z) (st : Server)
  : Server :=
  match engines st !! e with
  | Some (mkCoroutine taskId l (Awaiting i)) =>
      let '(st, pc) := after_await config taskId l i now st in
      mkServer (heap st) (tasks st) (<[e := mkCoroutine taskId l pc]> (engines st))
  | _ => st
  end.

(** ** Tool handlers *)

(** *** delegate *)

Record DelegateAccepted : Set := mkDelegateAccepted {
  da_taskId : string;
  da_status : TaskStatus;
  da_task : string;
  da_context : option string;
  da_createdAt : Z;
  da_message : string;
  da_estimatedTimeoutMs : Z;
}.

Record DelegateRejected : Set := mkDelegateRejected {
  dr_error : string;
  dr_maxConcurrentTasks : Z;
  dr_currentActiveTasks : Z;
  dr_message : string;
}.

Inductive DelegateResponse : Set :=
  | DelegateOk (r : DelegateAccepted)
  | DelegateLimit (r : DelegateRejected).

(** The input schema of the tool: [task] has between 1 and
    [maxTaskDescriptionLength] characters, [context] at most
    [maxContextLength]. *)
Definition delegate_schema (config : LiaisonConfig) (task : string)
    (context : option string) : bool :=
  (1 <=? Z.of_nat (String.length task))
  && (Z.of_nat (String.length task) <=? maxTaskDescriptionLength config)
  && match context with
     | Some c => Z.of_nat (String.length c) <=? maxContextLength config
     | None => true
     end.

Definition delegate (config : LiaisonConfig) (args_task : string)
    (args_context : option string) (uuid : string) (now : Z) (st : Server)
  : Server * DelegateResponse :=
  let activeCount := getActiveTaskCount st in
  if maxConcurrentTasks config <=? activeCount then
    (st, DelegateLimit
           (mkDelegateRejected "Maximum concurrent tasks reached"
              (maxConcurrentTasks config) activeCount
              "Please wait for some tasks to complete before delegating new ones"))
  else
    let taskId := generateTaskId uuid in
    let '(taskState, st) :=
      alloc (mkTaskState taskId args_task args_context PENDING now now
               None None None None (Some 0)) st in
    let st := mkServer (heap st) (Map_set (tasks st) taskId taskState) (engines st) in
    let st := processTask config taskId now st in
    let st := cleanupOldTasks st in
    (st, DelegateOk
           (mkDelegateAccepted taskId (status (deref st taskState)) args_task
              (truthy args_context) (createdAt (deref st taskState))
              "Task has been delegated and is pending execution"
              (taskTimeoutMs config))).

(** *** check_status *)

Record StatusReport : Set := mkStatusReport {
  sr_taskId : string;
  sr_status : TaskStatus;
  sr_task : string;
  sr_createdAt : Z;
  sr_updatedAt : Z;
  sr_progress : option Z;
  sr_context : option string;
  sr_startedAt : option Z;
  sr_completedAt : option Z;
  sr_durationMs : option Z;
  sr_result : option string;
  sr_error : option string;
  sr_message : string;
}.

(** The reply of a handler whose [try] block raised. *)
Record ErrorReply : Set := mkErrorReply {
  er_error : string;
  er_taskId : string;
  er_message : string;
}.

Inductive CheckStatusResponse : Set :=
  | CheckStatusOk (r : StatusReport)
  | CheckStatusError (r : ErrorReply).

(** [validateTaskExists]: the task, or the message of the error it throws. *)
Definition validateTaskExists (st : Server) (taskId : string)
  : string + loc :=
  match Map_get (tasks st) taskId with
  | None => inl ("Task not found: " ++ taskId)
  | Some l => inr l
  end.

Definition status_message (s : TaskStatus) : string :=
  match s with
  | PENDING => "Task is pending execution"
  | IN_PROGRESS => "Task is currently being processed"
  | COMPLETED => "Task completed successfully"
  | FAILED => "Task failed during execution"
  | CANCELLED => "Task was cancelled"
  end.

Definition check_status (args_taskId : string) (st : Server)
  : CheckStatusResponse :=
  match validateTaskExists st args_taskId with
  | inl message =>
      CheckStatusError
        (mkErrorReply "Failed to check task status" args_taskId message)
  | inr l =>
      let t := deref st l in
      CheckStatusOk
        (mkStatusReport (id t) (status t) (task t)
           (createdAt t) (updatedAt t) (progress t)
           (truthy (context t))
           (startedAt t)
           (completedAt t)
           ((λ c, c - createdAt t) <$> completedAt t)
           (truthy (result t))
           (truthy (error t))
           (status_message (status t)))
  end.

(** *** list_tasks *)

Record TaskSummary : Set := mkTaskSummary {
  ts_taskId : string;
  ts_status : TaskStatus;
  ts_task : string;
  ts_createdAt : Z;
  ts_updatedAt : Z;
  ts_progress : option Z;
}.

Record ListResponse : Set := mkListResponse {
  lr_total : Z;
  lr_filtered : Z;
  lr_tasks : list TaskSummary;
}.

(** The input schema of [limit]: an integer, positive, at most 100, 10 when
    omitted.  [None] when the request is refused. *)
Definition limit_schema (limit : option Z) : option Z :=
  match limit with
  | None => Some 10
  | Some n => if (0 <? n) && (n <=? 100) then Some n else None
  end.

Definition summarize (t : TaskState) : TaskSummary :=
  mkTaskSummary (id t) (status t)
    (substring_0 100 (task t)
       ++ (if 100 <? Z.of_nat (String.length (task t)) then "..." else ""))
    (createdAt t) (updatedAt t) (progress t).

Definition list_tasks (args_status : option TaskStatus) (args_limit : Z)
    (st : Server) : ListResponse :=
  let total := Z.of_nat (length (tasks st)) in
  let tasks := Map_values st in
  let tasks :=
    match args_status with
    | Some s => filter (λ t, status t = s) tasks
    | None => tasks
    end in
  let tasks := Array_sort (λ a b, updatedAt b - updatedAt a) tasks in
  let tasks := Array_slice 0 args_limit tasks in
  let taskList := summarize <$> tasks in
  mkListResponse total (Z.of_nat (length taskList)) taskList.

(** *** cancel_task *)

Record CancelRefused : Set := mkCancelRefused {
  cr_error : string;
  cr_taskId : string;
  cr_status : TaskStatus;
  cr_message : string;
}.

Record CancelDone : Set := mkCancelDone {
  cd_taskId : string;
  cd_status : TaskStatus;
  cd_message : string;
  cd_updatedAt : Z;
}.

Inductive CancelResponse : Set :=
  | CancelOk (r : CancelDone)
  | CancelNotAllowed (r : CancelRefused)
  | CancelError (r : ErrorReply).

Definition cancel_task (args_taskId : string) (now : Z) (st : Server)
  : Server * CancelResponse :=
  match validateTaskExists st args_taskId with
  | inl message =>
      (st, CancelError (mkErrorReply "Failed to cancel task" args_taskId message))
  | inr task =>
      if decide (status (deref st task) ≠ PENDING
                 ∧ status (deref st task) ≠ IN_PROGRESS) then
        (st, CancelNotAllowed
               (mkCancelRefused "Cannot cancel task" args_taskId
                  (status (deref st task))
                  ("Task is already " ++ TaskStatus_value (status (deref st task))
                   ++ " and cannot be cancelled")))
      else
        let st := write task (set_status CANCELLED) st in
        let st := write task (set_updatedAt now) st in
        (st, CancelOk
               (mkCancelDone (id (deref st task)) (status (deref st task))
                  "Task has been cancelled" (updatedAt (deref st task))))
  end.

(** ** Other methods of the server *)

(** [handleShutdown], up to the close of the transport. *)
Definition handleShutdown (now : Z) (st : Server) : Server :=
  let runningTasks := filter (λ l, is_active (deref st l)) ((tasks st).*2) in
  foldl (λ st task,
           let st := write task (set_status CANCELLED) st in
           write task (set_updatedAt now) st)
        st runningTasks.

Definition clearTasks (st : Server) : Server :=
  mkServer (heap st) [] (engines st).

Definition getTask (st : Server) (taskId : string) : option TaskState :=
  tasks_get st taskId.

Record Stats : Set := mkStats {
  totalTasks : Z;
  pendingTasks : Z;
  inProgressTasks : Z;
  completedTasks : Z;
  failedTasks : Z;
  cancelledTasks : Z;
}.

Definition count_status (s : TaskStatus) (l : list TaskState) : Z :=
  Z.of_nat (length (filter (λ t, status t = s) l)).

Definition getStats (st : Server) : Stats :=
  let tasks := Map_values st in
  mkStats (Z.of_nat (length tasks)) (count_status PENDING tasks)
    (count_status IN_PROGRESS tasks) (count_status COMPLETED tasks)
    (count_status FAILED tasks) (count_status CANCELLED tasks).

(** ** Runs of the server *)

(** What the event loop can run next: a tool call (the request carries the
    arguments, the run supplies the clock and the identifier drawn by
    [randomUUID]), the timer of a suspended [processTask], a termination
    signal, or a call of [clearTasks]. *)
Inductive Event : Set :=
  | CallDelegate (task : string) (context : option string) (uuid : string) (now : Z)
  | CallCheckStatus (taskId : string)
  | CallListTasks (status : option TaskStatus) (limit : option Z)
  | CallCancelTask (taskId : string) (now : Z)
  | Timer (e : nat) (now : Z)
  | Signal (now : Z)
  | ClearTasks.

Inductive Response : Set :=
  | Delegated (r : DelegateResponse)
  | Checked (r : CheckStatusResponse)
  | Listed (r : ListResponse)
  | Cancelled (r : CancelResponse)
  | InvalidArguments
  | NoResponse.

Definition step (config : LiaisonConfig) (ev : Event) (st : Server)
  : Server * Response :=
  match ev with
  | CallDelegate task context uuid now =>
      if delegate_schema config task context then
        let '(st, r) := delegate config task context uuid now st in
        (st, Delegated r)
      else (st, InvalidArguments)
  | CallCheckStatus taskId =>
      if (1 <=? Z.of_nat (String.length taskId)) then
        (st, Checked (check_status taskId st))
      else (st, InvalidArguments)
  | CallListTasks status limit =>
      match limit_schema limit with
      | Some n => (st, Listed (list_tasks status n st))
      | None => (st, InvalidArguments)
      end
  | CallCancelTask taskId now =>
      if (1 <=? Z.of_nat (String.length taskId)) then
        let '(st, r) := cancel_task taskId now st in
        (st, Cancelled r)
      else (st, InvalidArguments)
  | Timer e now => (timer config e now st, NoResponse)
  | Signal now => (handleShutdown now st, NoResponse)
  | ClearTasks => (clearTasks st, NoResponse)
  end.

(** The state after a sequence of events, and the responses on the way. *)
Definition run (config : LiaisonConfig) (evs : list Event) (st : Server)
  : Server :=
  foldl (λ st ev, (step config ev st).1) st evs.

Fixpoint responses (config : LiaisonConfig) (evs : list Event) (st : Server)
  : list Response :=
  match evs with
  | [] => []
  | ev :: evs' =>
      let '(st', r) := step config ev st in r :: responses config evs' st'
  end.

(** The states a server can be in. *)
Definition reachable (config : LiaisonConfig) (st : Server) : Prop :=
  ∃ evs, st = run config evs init.

Definition terminal_count (st : Server) : Z :=
  Z.of_nat (length (filter is_terminal (Map_values st))).

(** ** Invariants of the server state *)

(** A suspended [processTask] is inside its loop, and its task has been
    started and is running or cancelled. *)
Definition awaiting_ok (st : Server) (c : Coroutine) : Prop :=
  match co_pc c with
  | Awaiting i =>
      (i < steps)%nat
      ∧ (status (deref st (co_task c)) = IN_PROGRESS
         ∨ status (deref st (co_task c)) = CANCELLED)
      ∧ is_Some (startedAt (deref st (co_task c)))
  | Returned => True
  end.

(** References denote allocated objects, the map has one entry per key, and
    every task object has at most one [processTask] call. *)
Record wf (st : Server) : Prop := mk_wf {
  wf_tasks : Forall (λ e, (e.2 < length (heap st))%nat) (tasks st);
  wf_keys : NoDup (tasks st).*1;
  wf_engines : Forall (λ c, (co_task c < length (heap st))%nat) (engines st);
  wf_engines_nodup : NoDup (co_task <$> engines st);
  wf_awaiting : Forall (awaiting_ok st) (engines st);
}.

(** No task enters PENDING or IN_PROGRESS, and no entry joins the map. *)
Definition no_new_activity (st st' : Server) : Prop :=
  tasks st' `sublist_of` tasks st
  ∧ ∀ l, is_active (deref st' l) → is_active (deref st l).

(** The two assignments of a cancellation, as one update. *)
Definition cancelled_at (now : Z) (t : TaskState) : TaskState :=
  set_updatedAt now (set_status CANCELLED t).

(** The object of an admitted task once [processTask] has reached its first
    [await], and the server state at that point, before [cleanupOldTasks]. *)
Definition started_task (taskId args_task : string)
    (args_context : option string) (now : Z) : TaskState :=
  mkTaskState taskId args_task args_context IN_PROGRESS now now (Some now)
    None None None (Some 0).

Definition admitted (args_task : string) (args_context : option string)
    (uuid : string) (now : Z) (st : Server) : Server :=
  let taskId := generateTaskId uuid in
  mkServer (heap st ++ [started_task taskId args_task args_context now])
    (Map_set (tasks st) taskId (length (heap st)))
    (engines st ++ [mkCoroutine taskId (length (heap st)) (Awaiting 0)]).

(** The entries [cleanupOldTasks] deletes: those behind the first 100 of
    [completedTasks], when there are more than 100. *)
Definition evicted (st : Server) : list (string * TaskState) :=
  if decide (100 < length (cleanup_completedTasks st))%nat
  then drop 100 (cleanup_completedTasks st) else [].

(** The two states [processTask] ends a task in. *)
Definition settled (t : TaskState) : Prop :=
  status t = COMPLETED ∨ status t = FAILED.

(** A task object in a terminal state that no suspended [processTask]
    holds. *)
Definition finished (st : Server) (l : loc) : Prop :=
  is_terminal (deref st l)
  ∧ Forall (λ c, co_task c = l → co_pc c = Returned) (engines st).

(** ** Sample runs *)

(** One delegation of "ping" without context, on a new server. *)
Definition ping_run : list Event := [CallDelegate "ping" None "a" 0].

(** The five timers of its [processTask], one second apart, with a
    cancellation while the last await is pending. *)
Definition late_cancel_run : list Event :=
  ping_run ++ [Timer 0 1000; Timer 0 2000; Timer 0 3000; Timer 0 4000;
               CallCancelTask "task-a" 4500; Timer 0 5000].

(** A cancellation right after the delegation, then the timers. *)
Definition early_cancel_run : list Event :=
  ping_run ++ [CallCancelTask "task-a" 1; Timer 0 1000; Timer 0 2000].

(** [n] delegations in a row, with identifiers [0 .. n-1]. *)
Definition delegations (n : nat) : list Event :=
  (λ i, CallDelegate "work" None (Number_toString (Z.of_nat i)) (Z.of_nat i))
    <$> seq 0 n.

(** [n] delegations, each cancelled before the next one. *)
Definition cancelled_delegations (n : nat) : list Event :=
  seq 0 n ≫= λ i,
    [CallDelegate "work" None (Number_toString (Z.of_nat i)) (Z.of_nat i);
     CallCancelTask (generateTaskId (Number_toString (Z.of_nat i))) (Z.of_nat i)].

(** ** What an event does to one task object *)

(** The assignments of [processTask] after the [await] of iteration [i], of
    its completion, and of its [catch] block, each as one update. *)
Definition progressed (i : nat) (now : Z) (t : TaskState) : TaskState :=
  set_updatedAt now
    (set_progress (round_percent (Z.of_nat i + 1) (Z.of_nat steps)) t).

Definition completed_at (now : Z) (t : TaskState) : TaskState :=
  set_result simulated_result
    (set_progress 100
       (set_updatedAt now (set_completedAt now (set_status COMPLETED t)))).

Definition failed_at (now : Z) (message : string) (t : TaskState) : TaskState :=
  set_error message
    (set_updatedAt now (set_completedAt now (set_status FAILED t))).

(** The changes an event with clock reading [clock] can make to the task
    object [t] at location [l] of the state [st]: none; a cancellation, of an
    active task; the progress write of the [processTask] suspended on it,
    alone or followed by its completion or its failure. *)
Inductive obj_step (config : LiaisonConfig) (st : Server) (l : loc)
    (clock : option Z) (t : TaskState) : TaskState → Prop :=
  | obj_same : obj_step config st l clock t t
  | obj_cancel now :
      clock = Some now →
      is_active t → obj_step config st l clock t (cancelled_at now t)
  | obj_progress e taskId i now :
      clock = Some now →
      engines st !! e = Some (mkCoroutine taskId l (Awaiting i)) →
      (S i < steps)%nat →
      obj_step config st l clock t (progressed i now t)
  | obj_complete e taskId i now :
      clock = Some now →
      engines st !! e = Some (mkCoroutine taskId l (Awaiting i)) →
      ¬ (S i < steps)%nat →
      check_timeout config now (progressed i now t) = None →
      obj_step config st l clock t (completed_at now (progressed i now t))
  | obj_fail e taskId i now message :
      clock = Some now →
      engines st !! e = Some (mkCoroutine taskId l (Awaiting i)) →
      ¬ (S i < steps)%nat →
      check_timeout config now (progressed i now t) = Some message →
      obj_step config st l clock t
        (failed_at now message (progressed i now t)).

(** The shape of a task object of a running server: it has been started,
    its progress is one of the six values [processTask] writes, and
    [completedAt], [result] and [error] go with its status. *)
Definition percent_ok (p : Z) : Prop :=
  p = 0 ∨ p = 20 ∨ p = 40 ∨ p = 60 ∨ p = 80 ∨ p = 100.

Definition record_ok (config : LiaisonConfig) (t : TaskState) : Prop :=
  is_Some (startedAt t)
  ∧ (∃ p, progress t = Some p ∧ percent_ok p)
  ∧ match status t with
    | PENDING => False
    | IN_PROGRESS | CANCELLED =>
        completedAt t = None ∧ result t = None ∧ error t = None
    | COMPLETED =>
        is_Some (completedAt t) ∧ result t = Some simulated_result
        ∧ error t = None ∧ progress t = Some 100
    | FAILED =>
        is_Some (completedAt t) ∧ result t = None
        ∧ error t = Some (timeout_message config) ∧ progress t = Some 100
    end.

(** A suspended [processTask] has written the progress of the iterations it
    has finished, and its argument is the [id] of its task. *)
Definition coroutine_ok (st : Server) (c : Coroutine) : Prop :=
  id (deref st (co_task c)) = co_taskId c
  ∧ match co_pc c with
    | Awaiting i =>
        progress (deref st (co_task c))
        = Some (round_percent (Z.of_nat i) (Z.of_nat steps))
    | Returned => True
    end.

(** The arguments of [delegate] that the input schema lets through are kept
    on the task object. *)
Definition within_schema (config : LiaisonConfig) (t : TaskState) : Prop :=
  1 ≤ Z.of_nat (String.length (task t)) ≤ maxTaskDescriptionLength config
  ∧ ∀ c, context t = Some c →
         Z.of_nat (String.length c) ≤ maxContextLength config.

Record wf_records (config : LiaisonConfig) (st : Server) : Prop := mk_wf_records {
  wfr_wf : wf st;
  wfr_records : Forall (record_ok config) (heap st);
  wfr_schema : Forall (within_schema config) (heap st);
  wfr_keys : Forall (λ e, id (deref st e.2) = e.1) (tasks st);
  wfr_coroutines : Forall (coroutine_ok st) (engines st);
}.

(** The clock reading of an event, if it takes one. *)
Definition event_time (ev : Event) : option Z :=
  match ev with
  | CallDelegate _ _ _ now => Some now
  | CallCancelTask _ now => Some now
  | Timer _ now => Some now
  | Signal now => Some now
  | CallCheckStatus _ | CallListTasks _ _ | ClearTasks => None
  end.

(** The clock does not run backwards along a sequence of events. *)
Definition clock_monotone (evs : list Event) : Prop :=
  StronglySorted Z.le (omap event_time evs).

(** The timestamps of a task object are in order, and none is later than
    the clock reading [c]. *)
Definition timestamps_ok (c : Z) (t : TaskState) : Prop :=
  createdAt t ≤ updatedAt t ∧ updatedAt t ≤ c
  ∧ (∀ s, startedAt t = Some s → createdAt t ≤ s ∧ s ≤ updatedAt t)
  ∧ (∀ d, completedAt t = Some d →
          d ≤ updatedAt t ∧ ∀ s, startedAt t = Some s → s ≤ d).



(** * Properties *)

(** ** Sorting and slicing *)

Section SortByKey.
Context {A : Type} (key : A → Z).

Lemma sort_insert_perm x l : sort_insert (descending key) x l ≡ₚ x :: l.
Proof.
  induction l as [|y l IH]; simpl; [done|].
  destruct (descending key x y <=? 0); [done|].
  rewrite IH. apply Permutation_swap.
Qed.

Lemma Array_sort_perm l : Array_sort (descending key) l ≡ₚ l.
Proof.
  induction l as [|x l IH]; simpl; [done|].
  by rewrite sort_insert_perm, IH.
Qed.

Lemma sort_insert_sorted x l :
  StronglySorted (before key) l →
  StronglySorted (before key) (sort_insert (descending key) x l).
Proof.
  induction 1 as [|y l Hl IH Hy]; simpl.
  - repeat constructor.
  - unfold descending at 1.
    destruct (Z.leb_spec (key y - key x) 0) as [Hle|Hgt].
    + constructor; [by constructor|].
      constructor; [unfold before; lia|].
      eapply Forall_impl; [exact Hy|]. unfold before. intros; lia.
    + constructor; [done|].
      rewrite sort_insert_perm. constructor; [unfold before; lia|done].
Qed.

Lemma Array_sort_sorted l :
  StronglySorted (before key) (Array_sort (descending key) l).
Proof.
  induction l as [|x l IH]; simpl; [constructor|].
  by apply sort_insert_sorted.
Qed.

Lemma Array_sort_length l :
  length (Array_sort (descending key) l) = length l.
Proof. by rewrite Array_sort_perm. Qed.

Lemma Array_sort_elem_of x l : x ∈ Array_sort (descending key) l ↔ x ∈ l.
Proof. by rewrite Array_sort_perm. Qed.
End SortByKey.

Lemma StronglySorted_take {A} (R : A → A → Prop) n l :
  StronglySorted R l → StronglySorted R (take n l).
Proof.
  intros H. rewrite <- (take_drop n l) in H.
  by apply StronglySorted_app_1_l in H.
Qed.

Lemma StronglySorted_fmap_2 {A B} (f : A → B) (R : B → B → Prop) l :
  StronglySorted (λ a b, R (f a) (f b)) l → StronglySorted R (f <$> l).
Proof.
  induction 1 as [|x l Hl IH Hx]; simpl; constructor; [done|].
  by apply Forall_fmap.
Qed.

Lemma Array_slice_0 {A} (n : Z) (l : list A) :
  0 ≤ n → Array_slice 0 n l = take (Z.to_nat n) l.
Proof.
  intros Hn. unfold Array_slice, slice_index.
  destruct (Z.ltb_spec n 0) as [?|_]; [lia|].
  change (0 <? 0) with false. cbv iota.
  replace (Z.min 0 (Z.of_nat (length l))) with 0 by lia.
  rewrite Z.sub_0_r. change (Z.to_nat 0) with 0%nat. rewrite drop_0.
  destruct (Z.le_gt_cases n (Z.of_nat (length l))).
  - by rewrite Z.min_l.
  - rewrite Z.min_r by lia. rewrite Nat2Z.id.
    rewrite !take_ge; [done|lia..].
Qed.

Lemma Array_slice_from_drop {A} (n : nat) (l : list A) :
  Array_slice_from (Z.of_nat n) l = drop n l.
Proof.
  unfold Array_slice_from, Array_slice, slice_index.
  destruct (Z.ltb_spec (Z.of_nat n) 0) as [?|_]; [lia|].
  destruct (Z.ltb_spec (Z.of_nat (length l)) 0) as [?|_]; [lia|].
  rewrite Z.min_id.
  destruct (Nat.le_gt_cases n (length l)).
  - rewrite Z.min_l by lia. rewrite Nat2Z.id.
    apply take_ge. rewrite length_drop. lia.
  - rewrite Z.min_r by lia. rewrite Nat2Z.id, Z.sub_diag. simpl.
    by rewrite !drop_ge by lia.
Qed.

(** ** Strings *)

Lemma substring_0_chars n s :
  list_ascii_of_string (substring_0 n s) = take n (list_ascii_of_string s).
Proof.
  unfold substring_0. revert s.
  induction n as [|n IH]; intros [|c s]; simpl; try done.
  by rewrite IH.
Qed.

Lemma append_chars s1 s2 :
  list_ascii_of_string (s1 ++ s2)
  = (list_ascii_of_string s1 ++ list_ascii_of_string s2)%list.
Proof. induction s1 as [|c s1 IH]; simpl; [done|]. by rewrite IH. Qed.

Lemma length_chars s : length (list_ascii_of_string s) = String.length s.
Proof. induction s as [|c s IH]; simpl; [done|]. by rewrite IH. Qed.

Lemma Array_slice_subseteq {A} (a b : Z) (l : list A) : Array_slice a b l ⊆ l.
Proof.
  unfold Array_slice. etrans; [apply subseteq_take|apply subseteq_drop].
Qed.

(** ** list_tasks and check_status *)

Lemma list_tasks_selection args_status n st :
  lr_tasks (list_tasks args_status n st)
  = summarize <$>
      Array_slice 0 n
        (Array_sort (descending updatedAt)
           (match args_status with
            | Some s => filter (λ t, status t = s) (Map_values st)
            | None => Map_values st
            end)).
Proof. reflexivity. Qed.

Lemma limit_schema_range limit n :
  limit_schema limit = Some n → 1 ≤ n ≤ 100 ∧ (limit = None → n = 10).
Proof.
  destruct limit as [m|]; simpl.
  - destruct (Z.ltb_spec 0 m), (Z.leb_spec m 100); simpl; intros [= <-];
      split; [lia|done].
  - intros [= <-]. split; [lia|done].
Qed.

(** C9: for every registry state, status filter and limit accepted by the
    schema (an integer from 1 to 100, 10 when omitted), the call is answered
    without changing the state, with at most [limit] records, all of the
    requested status when a filter is given, in descending order of
    [updatedAt]. *)
Theorem list_tasks_bounded_filtered_sorted (config : LiaisonConfig)
    (st : Server) (args_status : option TaskStatus) (limit : option Z) (n : Z) :
  limit_schema limit = Some n →
  let listed := lr_tasks (list_tasks args_status n st) in
  step config (CallListTasks args_status limit) st
    = (st, Listed (list_tasks args_status n st))
  ∧ 1 ≤ n ≤ 100
  ∧ (limit = None → n = 10)
  ∧ Z.of_nat (length listed) ≤ n
  ∧ (∀ s, args_status = Some s → Forall (λ e, ts_status e = s) listed)
  ∧ StronglySorted (λ a b, ts_updatedAt b ≤ ts_updatedAt a) listed.
Proof.
  intros Hlimit listed.
  destruct (limit_schema_range _ _ Hlimit) as [Hn Hdefault].
  split; [simpl; by rewrite Hlimit|].
  do 2 (split; [done|]).
  subst listed. rewrite list_tasks_selection, Array_slice_0 by lia.
  split; [|split].
  - rewrite length_fmap, length_take. lia.
  - intros s ->. apply Forall_fmap, Forall_forall. intros t Ht.
    apply subseteq_take, Array_sort_elem_of, list_elem_of_filter in Ht.
    simpl. tauto.
  - apply StronglySorted_fmap_2. simpl.
    apply StronglySorted_take, (Array_sort_sorted updatedAt).
Qed.

(** C10: every entry of a listing belongs to a stored task, and its
    description is made of the first 100 characters of the stored one,
    followed by the three characters "..." exactly when the stored
    description has more than 100; [check_status] reports the stored
    description as it is. *)
Theorem listing_truncates_description (st : Server)
    (args_status : option TaskStatus) (args_limit : Z) :
  Forall
    (λ e, ∃ t, t ∈ Map_values st ∧ ts_taskId e = id t
          ∧ list_ascii_of_string (ts_task e)
            = (take 100 (list_ascii_of_string (task t))
               ++ if decide (100 < String.length (task t))%nat
                  then list_ascii_of_string "..." else [])%list)
    (lr_tasks (list_tasks args_status args_limit st))
  ∧ (∀ taskId l,
       Map_get (tasks st) taskId = Some l →
       ∃ r, check_status taskId st = CheckStatusOk r
            ∧ sr_taskId r = id (deref st l)
            ∧ sr_task r = task (deref st l)).
Proof.
  split.
  - rewrite list_tasks_selection. apply Forall_fmap, Forall_forall.
    intros t Ht. exists t. split; [|split; [done|]].
    + apply Array_slice_subseteq, Array_sort_elem_of in Ht.
      destruct args_status; [|done].
      by apply list_elem_of_filter in Ht as [_ ?].
    + simpl. rewrite append_chars, substring_0_chars. f_equal.
      destruct (Z.ltb_spec 100 (Z.of_nat (String.length (task t))));
        case_decide; try lia; done.
  - intros taskId l Hl. unfold check_status, validateTaskExists.
    rewrite Hl. eexists. split; [reflexivity|]. done.
Qed.

(** ** The store *)

Lemma deref_write l f st j :
  deref (write l f st) j
  = if decide (l = j ∧ (l < length (heap st))%nat) then f (deref st l)
    else deref st j.
Proof. apply list_lookup_total_alter. Qed.

Lemma deref_write_ne l f st j : l ≠ j → deref (write l f st) j = deref st j.
Proof. intros. rewrite deref_write. case_decide; naive_solver. Qed.

Lemma deref_write_eq l f st :
  (l < length (heap st))%nat → deref (write l f st) l = f (deref st l).
Proof. intros. rewrite deref_write. case_decide; naive_solver. Qed.

Lemma write_write l f g st : write l g (write l f st) = write l (g ∘ f) st.
Proof. unfold write. simpl. by rewrite list_alter_alter_eq. Qed.

Lemma length_heap_write l f st :
  length (heap (write l f st)) = length (heap st).
Proof. apply length_alter. Qed.

(** A property of single task objects that an update respects is respected
    by the store. *)
Lemma deref_write_ind (P : TaskState → TaskState → Prop) l f st j :
  (∀ t, P t t) → (∀ t, P t (f t)) → P (deref st j) (deref (write l f st) j).
Proof. intros Hrefl Hf. rewrite deref_write. case_decide as H; [|done]. by destruct H as [-> _]. Qed.

(** ** The map *)

Lemma Map_get_elem_of m k l : Map_get m k = Some l → (k, l) ∈ m.
Proof.
  induction m as [|[k' v] m IH]; simpl; [done|].
  destruct (String.eqb_spec k' k) as [->|]; [intros [= ->]; left|right; auto].
Qed.

Lemma Map_get_None m k : Map_get m k = None ↔ k ∉ m.*1.
Proof.
  induction m as [|[k' v] m IH]; simpl.
  - split; [intros _; apply not_elem_of_nil|done].
  - rewrite not_elem_of_cons. destruct (String.eqb_spec k' k) as [->|]; naive_solver.
Qed.

Lemma Map_get_set_eq m k v : Map_get (Map_set m k v) k = Some v.
Proof.
  induction m as [|[k' v'] m IH]; simpl.
  - by rewrite String.eqb_refl.
  - destruct (String.eqb_spec k' k) as [->|Hne]; simpl.
    + by rewrite String.eqb_refl.
    + by destruct (String.eqb_spec k' k).
Qed.

Lemma Map_set_elem_of m k v e : e ∈ Map_set m k v → e = (k, v) ∨ e ∈ m.
Proof.
  induction m as [|[k' v'] m IH]; simpl.
  - rewrite list_elem_of_singleton. auto.
  - destruct (String.eqb_spec k' k) as [->|Hne]; rewrite !elem_of_cons; naive_solver.
Qed.

Lemma Map_set_keys m k v :
  (Map_set m k v).*1 = if decide (k ∈ m.*1) then m.*1 else (m.*1 ++ [k])%list.
Proof.
  induction m as [|[k' v'] m IH]; csimpl; [done|].
  destruct (String.eqb_spec k' k) as [->|Hne]; csimpl.
  - rewrite decide_True; [done|left].
  - rewrite IH. destruct (decide (k ∈ m.*1)) as [Hin|Hin].
    + rewrite decide_True; [done|by right].
    + rewrite decide_False; [done|]. intros [?|?]%elem_of_cons; congruence.
Qed.

Lemma Map_set_NoDup m k v : NoDup m.*1 → NoDup (Map_set m k v).*1.
Proof.
  intros H. rewrite Map_set_keys. case_decide; [done|].
  apply NoDup_app. split_and!; [done| |apply NoDup_singleton].
  intros x Hx ->%list_elem_of_singleton. done.
Qed.

Lemma Map_delete_sublist m k : Map_delete m k `sublist_of` m.
Proof.
  induction m as [|[k' v'] m IH]; simpl; [done|].
  destruct (String.eqb k' k); [by apply sublist_cons|by apply sublist_skip].
Qed.

Lemma foldl_Map_delete_sublist {B} (key : B → string) m (ks : list B) :
  foldl (λ m e, Map_delete m (key e)) m ks `sublist_of` m.
Proof.
  revert m. induction ks as [|k ks IH]; intros m; simpl; [done|].
  etrans; [apply IH|apply Map_delete_sublist].
Qed.

(** ** Well-formed states *)

Lemma wf_init : wf init.
Proof. split; simpl; try constructor. Qed.

Lemma awaiting_ok_write l f st c :
  (∀ t, status t = IN_PROGRESS ∨ status t = CANCELLED →
        status (f t) = IN_PROGRESS ∨ status (f t) = CANCELLED) →
  (∀ t, is_Some (startedAt t) → is_Some (startedAt (f t))) →
  awaiting_ok st c → awaiting_ok (write l f st) c.
Proof.
  intros Hstatus Hstarted. unfold awaiting_ok.
  destruct (co_pc c) as [i|]; [|done].
  intros (Hi & Hs & Ht). split; [done|].
  revert Hs Ht.
  apply (deref_write_ind
    (λ t t', (status t = IN_PROGRESS ∨ status t = CANCELLED) →
             is_Some (startedAt t) →
             (status t' = IN_PROGRESS ∨ status t' = CANCELLED)
             ∧ is_Some (startedAt t'))); auto.
Qed.

Lemma wf_write l f st :
  (∀ t, status t = IN_PROGRESS ∨ status t = CANCELLED →
        status (f t) = IN_PROGRESS ∨ status (f t) = CANCELLED) →
  (∀ t, is_Some (startedAt t) → is_Some (startedAt (f t))) →
  wf st → wf (write l f st).
Proof.
  intros Hstatus Hstarted [H1 H2 H3 H4 H5].
  split; simpl; rewrite ?length_alter; try done.
  eapply Forall_impl; [exact H5|]. intros c. by apply awaiting_ok_write.
Qed.

Lemma wf_tasks_sublist st m :
  m `sublist_of` tasks st → wf st → wf (mkServer (heap st) m (engines st)).
Proof.
  intros Hm [H1 H2 H3 H4 H5]. split; simpl; try done.
  - eapply Forall_forall. intros e He.
    eapply Forall_forall in H1; [exact H1|]. by eapply elem_of_sublist.
  - eapply sublist_NoDup; [exact H2|]. by apply fmap_sublist.
Qed.

(** ** cancel_task *)

Lemma not_active_terminal t : ¬ is_active t ↔ is_terminal t.
Proof. unfold is_active, is_terminal. destruct (status t); naive_solver. Qed.

Lemma cancel_task_found args_taskId now st l :
  Map_get (tasks st) args_taskId = Some l →
  cancel_task args_taskId now st
  = if decide (is_terminal (deref st l)) then
      (st, CancelNotAllowed
             (mkCancelRefused "Cannot cancel task" args_taskId
                (status (deref st l))
                ("Task is already " ++ TaskStatus_value (status (deref st l))
                 ++ " and cannot be cancelled")))
    else
      let st' := write l (cancelled_at now) st in
      (st', CancelOk (mkCancelDone (id (deref st' l)) (status (deref st' l))
                        "Task has been cancelled" (updatedAt (deref st' l)))).
Proof.
  intros Hl. unfold cancel_task, validateTaskExists. rewrite Hl.
  repeat case_decide; try done.
  - exfalso. unfold is_terminal in *. destruct (status (deref st l)); naive_solver.
  - exfalso. unfold is_terminal in *. destruct (status (deref st l)); naive_solver.
  - cbv zeta. by rewrite !write_write.
Qed.

Lemma cancel_task_state args_taskId now st :
  (cancel_task args_taskId now st).1 = st
  ∨ ∃ l, is_active (deref st l)
       ∧ (cancel_task args_taskId now st).1 = write l (cancelled_at now) st.
Proof.
  destruct (Map_get (tasks st) args_taskId) as [l|] eqn:Hl.
  - rewrite (cancel_task_found _ _ _ _ Hl). case_decide as Ht; [by left|].
    right. exists l. split; [|done].
    by apply dec_stable; rewrite not_active_terminal.
  - left. unfold cancel_task, validateTaskExists. by rewrite Hl.
Qed.

(** ** delegate *)

Lemma alter_snoc {A} (f : A → A) (h : list A) (t : A) :
  alter f (length h) (h ++ [t])%list = (h ++ [f t])%list.
Proof.
  pose proof (alter_app_r f h [t] 0) as H.
  by rewrite Nat.add_0_r in H.
Qed.

Lemma heap_cleanupOldTasks st : heap (cleanupOldTasks st) = heap st.
Proof. unfold cleanupOldTasks. by case_match. Qed.

Lemma engines_cleanupOldTasks st : engines (cleanupOldTasks st) = engines st.
Proof. unfold cleanupOldTasks. by case_match. Qed.

Lemma tasks_cleanupOldTasks st :
  tasks (cleanupOldTasks st) `sublist_of` tasks st.
Proof.
  unfold cleanupOldTasks. case_match; [|done]. simpl.
  apply (foldl_Map_delete_sublist fst).
Qed.

(** In [delegate], [processTask] has run up to its first [await] by the time
    the response is built: the state is [admitted] followed by the cleanup,
    and the status the response reads from the task object is the one
    [processTask] has written. *)
Lemma delegate_accepted config args_task args_context uuid now st :
  getActiveTaskCount st < maxConcurrentTasks config →
  delegate config args_task args_context uuid now st
  = (cleanupOldTasks (admitted args_task args_context uuid now st),
     DelegateOk
       (mkDelegateAccepted (generateTaskId uuid) IN_PROGRESS args_task
          (truthy args_context) now
          "Task has been delegated and is pending execution"
          (taskTimeoutMs config))).
Proof.
  intros Hcount. unfold delegate.
  destruct (Z.leb_spec (maxConcurrentTasks config) (getActiveTaskCount st));
    [lia|].
  unfold alloc. cbn [heap tasks engines].
  set (taskId := generateTaskId uuid).
  set (t0 := mkTaskState taskId args_task args_context PENDING now now
               None None None None (Some 0)).
  assert (processTask config taskId now
            (mkServer (heap st ++ [t0]) (Map_set (tasks st) taskId (length (heap st)))
               (engines st))
          = admitted args_task args_context uuid now st) as ->.
  { unfold processTask. simpl. rewrite Map_get_set_eq.
    rewrite !write_write. unfold write at 1. simpl.
    rewrite alter_snoc. simpl.
    unfold loop_head. simpl. unfold tasks_get. simpl.
    rewrite Map_get_set_eq. simpl. unfold deref. simpl.
    rewrite list_lookup_total_middle by done. reflexivity. }
  unfold deref. rewrite heap_cleanupOldTasks. simpl.
  by rewrite list_lookup_total_middle.
Qed.

Lemma delegate_rejected config args_task args_context uuid now st :
  maxConcurrentTasks config ≤ getActiveTaskCount st →
  delegate config args_task args_context uuid now st
  = (st, DelegateLimit
           (mkDelegateRejected "Maximum concurrent tasks reached"
              (maxConcurrentTasks config) (getActiveTaskCount st)
              "Please wait for some tasks to complete before delegating new ones")).
Proof.
  intros Hcount. unfold delegate.
  by destruct (Z.leb_spec (maxConcurrentTasks config) (getActiveTaskCount st));
    [|lia].
Qed.

(** ** processTask after an [await] *)

(** What the continuation of an [await] does to the task object: it keeps
    [startedAt], and either keeps the status, or returns with the status
    COMPLETED or FAILED. *)
Lemma after_await_spec config taskId l i now st :
  ∃ F pc,
    after_await config taskId l i now st = (write l F st, pc)
    ∧ (∀ t, startedAt (F t) = startedAt t)
    ∧ ((∀ t, status (F t) = status t) ∧ (∀ j, pc = Awaiting j → (j < steps)%nat)
       ∨ (pc = Returned ∧ ∀ t, status (F t) = COMPLETED ∨ status (F t) = FAILED)).
Proof.
  unfold after_await, loop_head. rewrite write_write.
  destruct (Nat.ltb_spec (S i) steps) as [Hlt|Hge].
  - destruct (tasks_get _ taskId) as [cur|]; [case_decide|].
    all: eexists _, _; split; [reflexivity|]; split; [done|].
    all: left; split; [done|]; intros j [= <-] || intros j [=]; done.
  - destruct (check_timeout _ _ _); rewrite !write_write.
    all: eexists _, _; split; [reflexivity|]; split; [done|].
    all: right; split; [done|]; intros t; simpl; auto.
Qed.

Lemma timer_spec config e now st :
  timer config e now st = st
  ∨ ∃ taskId l i F pc,
      engines st !! e = Some (mkCoroutine taskId l (Awaiting i))
      ∧ timer config e now st
        = mkServer (alter F l (heap st)) (tasks st)
            (<[e := mkCoroutine taskId l pc]> (engines st))
      ∧ (∀ t, startedAt (F t) = startedAt t)
      ∧ ((∀ t, status (F t) = status t)
         ∧ (∀ j, pc = Awaiting j → (j < steps)%nat)
         ∨ (pc = Returned
            ∧ ∀ t, status (F t) = COMPLETED ∨ status (F t) = FAILED)).
Proof.
  unfold timer. destruct (engines st !! e) as [[taskId l [i|]]|] eqn:He;
    [|by left..].
  right. destruct (after_await_spec config taskId l i now st)
    as (F & pc & -> & HF). by exists taskId, l, i, F, pc.
Qed.

Lemma wf_timer config e now st : wf st → wf (timer config e now st).
Proof.
  intros Hwf.
  destruct (timer_spec config e now st)
    as [->|(taskId & l & i & F & pc & He & -> & Hstarted & HF)]; [done|].
  pose proof Hwf as [H1 H2 H3 H4 H5].
  assert (co_task <$> <[e:=mkCoroutine taskId l pc]> (engines st)
          = co_task <$> engines st) as Hlocs.
  { rewrite list_fmap_insert. apply list_insert_id.
    by rewrite list_lookup_fmap, He. }
  split; simpl; rewrite ?length_alter; try done.
  - apply Forall_insert; [done|]. simpl.
    by eapply (Forall_lookup_1 _ _ _ _ H3 He).
  - by rewrite Hlocs.
  - apply Forall_lookup. intros e' c' Hc'.
    apply list_lookup_insert_Some in Hc' as [(<- & <- & Hlen)|(Hne & Hc')].
    + (* the coroutine that ran *)
      unfold awaiting_ok. simpl. destruct pc as [j|]; [|done].
      destruct HF as [[Hstatus Hj]|[[=] _]].
      pose proof (Forall_lookup_1 _ _ _ _ H5 He) as Hold.
      pose proof (Forall_lookup_1 _ _ _ _ H3 He) as Hl.
      unfold awaiting_ok in Hold. simpl in *.
      change (mkServer (alter F l (heap st)) (tasks st)
                (<[e:=mkCoroutine taskId l (Awaiting j)]> (engines st)))
        with (mkServer (heap (write l F st)) (tasks st)
                (<[e:=mkCoroutine taskId l (Awaiting j)]> (engines st))).
      unfold deref in *. simpl.
      rewrite list_lookup_total_alter_eq by done.
      rewrite Hstatus, Hstarted. naive_solver.
    + (* the others hold another task *)
      pose proof (Forall_lookup_1 _ _ _ _ H5 Hc') as Hold.
      assert (co_task c' ≠ l) as Hother.
      { intros Heq. apply Hne.
        eapply (NoDup_lookup _ _ _ _ H4); rewrite list_lookup_fmap.
        - by rewrite He.
        - by rewrite Hc', <- Heq. }
      unfold awaiting_ok in *. destruct (co_pc c'); [|done].
      unfold deref in *. simpl.
      by rewrite list_lookup_total_alter_ne.
Qed.

(** ** handleShutdown *)

Lemma handleShutdown_ind (P : Server → Prop) now st :
  (∀ st l, P st → P (write l (cancelled_at now) st)) →
  P st → P (handleShutdown now st).
Proof.
  intros Hstep. unfold handleShutdown.
  generalize (filter (λ l, is_active (deref st l)) (tasks st).*2) as ls.
  intros ls. revert st. induction ls as [|l ls IH]; intros st Hst; simpl; [done|].
  apply IH. rewrite write_write. by apply Hstep.
Qed.

Lemma wf_cancelled_at l now st : wf st → wf (write l (cancelled_at now) st).
Proof. apply wf_write; simpl; auto. Qed.

Lemma wf_handleShutdown now st : wf st → wf (handleShutdown now st).
Proof. apply handleShutdown_ind. intros; by apply wf_cancelled_at. Qed.

(** ** Every reachable state is well formed *)

Lemma cleanupOldTasks_shape st :
  cleanupOldTasks st
  = mkServer (heap st) (tasks (cleanupOldTasks st)) (engines st).
Proof. unfold cleanupOldTasks. case_match; [done|by destruct st]. Qed.

Lemma wf_cleanupOldTasks st : wf st → wf (cleanupOldTasks st).
Proof.
  intros Hwf. rewrite cleanupOldTasks_shape.
  apply wf_tasks_sublist; [apply tasks_cleanupOldTasks|done].
Qed.

Lemma deref_admitted_old args_task args_context uuid now st l :
  (l < length (heap st))%nat →
  deref (admitted args_task args_context uuid now st) l = deref st l.
Proof. intros Hl. unfold deref, admitted. simpl. by rewrite lookup_total_app_l. Qed.

Lemma deref_admitted_new args_task args_context uuid now st :
  deref (admitted args_task args_context uuid now st) (length (heap st))
  = started_task (generateTaskId uuid) args_task args_context now.
Proof. unfold deref, admitted. simpl. by rewrite list_lookup_total_middle. Qed.

Lemma wf_admitted args_task args_context uuid now st :
  wf st → wf (admitted args_task args_context uuid now st).
Proof.
  intros [H1 H2 H3 H4 H5]. split.
  - simpl. rewrite length_app. simpl. apply Forall_forall. intros e He.
    apply Map_set_elem_of in He as [->|He]; simpl; [lia|].
    eapply Forall_forall in H1; [|exact He]. simpl in H1. lia.
  - simpl. by apply Map_set_NoDup.
  - simpl. rewrite length_app. simpl. apply Forall_app. split.
    + eapply Forall_impl; [exact H3|]. simpl. intros; lia.
    + apply Forall_singleton. simpl. lia.
  - simpl. rewrite fmap_app. apply NoDup_app. split_and!; [done| |apply NoDup_singleton].
    intros l Hl ->%list_elem_of_singleton.
    apply list_elem_of_fmap in Hl as (c & Hc & Hin).
    eapply Forall_forall in H3; [|exact Hin]. simpl in *. lia.
  - unfold admitted at 2. simpl. apply Forall_app. split.
    + apply Forall_forall. intros c Hc.
      eapply Forall_forall in H3; [|exact Hc].
      eapply Forall_forall in H5; [|exact Hc].
      unfold awaiting_ok in *. destruct (co_pc c); [|done].
      by rewrite deref_admitted_old.
    + apply Forall_singleton. unfold awaiting_ok. simpl.
      rewrite deref_admitted_new. simpl. split_and!; [unfold steps; lia|by left|done].
Qed.

Lemma wf_delegate config args_task args_context uuid now st :
  wf st → wf (delegate config args_task args_context uuid now st).1.
Proof.
  intros Hwf.
  destruct (Z.lt_ge_cases (getActiveTaskCount st) (maxConcurrentTasks config)).
  - rewrite delegate_accepted by done. simpl.
    by apply wf_cleanupOldTasks, wf_admitted.
  - by rewrite delegate_rejected.
Qed.

Lemma wf_cancel_task args_taskId now st :
  wf st → wf (cancel_task args_taskId now st).1.
Proof.
  intros Hwf. destruct (cancel_task_state args_taskId now st)
    as [->|(l & _ & ->)]; [done|]. by apply wf_cancelled_at.
Qed.

Lemma wf_step config ev st : wf st → wf (step config ev st).1.
Proof.
  intros Hwf.
  destruct ev as [args_task args_context uuid now| | |taskId now|e now|now|];
    simpl.
  - case_match; [|done].
    pose proof (wf_delegate config args_task args_context uuid now st Hwf).
    by destruct (delegate _ _ _ _ _ _).
  - by case_match.
  - by case_match.
  - case_match; [|done].
    pose proof (wf_cancel_task taskId now st Hwf).
    by destruct (cancel_task _ _ _).
  - by apply wf_timer.
  - by apply wf_handleShutdown.
  - apply (wf_tasks_sublist st []); [apply sublist_nil_l|done].
Qed.

Lemma run_snoc config evs ev st :
  run config (evs ++ [ev]) st = (step config ev (run config evs st)).1.
Proof. unfold run. by rewrite foldl_app. Qed.

Lemma wf_run config evs st : wf st → wf (run config evs st).
Proof.
  intros Hwf. induction evs as [|ev evs IH] using rev_ind; [done|].
  rewrite run_snoc. by apply wf_step.
Qed.

Lemma reachable_wf config st : reachable config st → wf st.
Proof. intros [evs ->]. apply wf_run, wf_init. Qed.

(** C8: [cancel_task] on an identifier without a task answers with the
    not-found error and leaves the state as it is; on a task in a terminal
    state it refuses, reports the status of the task, and leaves the state as
    it is; otherwise it sets [status] to CANCELLED and [updatedAt] to the
    clock on the task object, changes no other property ([completedAt]
    included) and nothing else in the state, and answers with the identifier,
    status and [updatedAt] of the updated task. *)
Theorem cancel_task_contract (config : LiaisonConfig) (st : Server)
    (args_taskId : string) (now : Z) :
  reachable config st →
  (Map_get (tasks st) args_taskId = None →
     cancel_task args_taskId now st
     = (st, CancelError
              (mkErrorReply "Failed to cancel task" args_taskId
                 ("Task not found: " ++ args_taskId))))
  ∧ (∀ l, Map_get (tasks st) args_taskId = Some l →
          is_terminal (deref st l) →
          ∃ r, cancel_task args_taskId now st = (st, CancelNotAllowed r)
               ∧ cr_status r = status (deref st l))
  ∧ (∀ l, Map_get (tasks st) args_taskId = Some l →
          ¬ is_terminal (deref st l) →
          ∃ st' r,
            cancel_task args_taskId now st = (st', CancelOk r)
            ∧ tasks st' = tasks st
            ∧ engines st' = engines st
            ∧ length (heap st') = length (heap st)
            ∧ (∀ j, j ≠ l → deref st' j = deref st j)
            ∧ deref st' l
              = (let t := deref st l in
                 mkTaskState (id t) (task t) (context t) CANCELLED
                   (createdAt t) now (startedAt t) (completedAt t)
                   (result t) (error t) (progress t))
            ∧ cd_taskId r = id (deref st' l)
            ∧ cd_status r = status (deref st' l)
            ∧ cd_updatedAt r = updatedAt (deref st' l)).
Proof.
  intros Hwf%reachable_wf. split_and!.
  - intros Hl. unfold cancel_task, validateTaskExists. by rewrite Hl.
  - intros l Hl Ht. rewrite (cancel_task_found _ _ _ _ Hl).
    rewrite decide_True by done. by eexists.
  - intros l Hl Ht. rewrite (cancel_task_found _ _ _ _ Hl).
    rewrite decide_False by done. cbv zeta.
    assert (l < length (heap st))%nat as Hlen.
    { pose proof (wf_tasks _ Hwf) as H. eapply Forall_forall in H;
        [|by apply Map_get_elem_of]. done. }
    eexists _, _. split; [reflexivity|]. simpl.
    split_and!; try done.
    + apply length_alter.
    + intros j Hj. by apply deref_write_ne.
    + by rewrite deref_write_eq.
Qed.

Lemma cancel_task_contract_witness :
  reachable DEFAULT_CONFIG (run DEFAULT_CONFIG ping_run init)
  ∧ status
      (deref (cancel_task "task-a" 1 (run DEFAULT_CONFIG ping_run init)).1 0%nat)
    = CANCELLED.
Proof.
  assert (reachable DEFAULT_CONFIG (run DEFAULT_CONFIG ping_run init)) as Hr
    by (by exists ping_run).
  split; [exact Hr|].
  destruct (cancel_task_contract DEFAULT_CONFIG _ "task-a" 1 Hr) as (_ & _ & H).
  assert (Map_get (tasks (run DEFAULT_CONFIG ping_run init)) "task-a"
          = Some 0%nat) as Hl by reflexivity.
  assert (¬ is_terminal (deref (run DEFAULT_CONFIG ping_run init) 0%nat)) as Ht
    by (vm_compute; intros [H1|[H1|H1]]; discriminate H1).
  destruct (H 0%nat Hl Ht) as (st' & r & Heq & _ & _ & _ & _ & Hd & _).
  rewrite Heq. simpl. rewrite Hd. reflexivity.
Defined.

(** ** Admission *)

Lemma active_count_le (h h' : list TaskState) (m m' : TaskMap) :
  m' `sublist_of` m →
  (∀ l, is_active (h' !!! l) → is_active (h !!! l)) →
  (length (filter is_active ((λ e, h' !!! e.2) <$> m'))
   ≤ length (filter is_active ((λ e, h !!! e.2) <$> m)))%nat.
Proof.
  intros Hm Hh. induction Hm as [|e m' m Hm IH|e m' m Hm IH];
    rewrite ?fmap_cons, ?filter_cons; simpl.
  - done.
  - destruct (decide (is_active (h' !!! e.2))) as [Ha|Ha].
    + rewrite decide_True by auto. simpl. lia.
    + destruct (decide (is_active (h !!! e.2))); simpl; lia.
  - destruct (decide (is_active (h !!! e.2))); simpl; lia.
Qed.

Lemma no_new_activity_count st st' :
  no_new_activity st st' → getActiveTaskCount st' ≤ getActiveTaskCount st.
Proof.
  intros [Hm Hh]. unfold getActiveTaskCount, Map_values.
  apply inj_le. by apply active_count_le.
Qed.

Lemma no_new_activity_refl st : no_new_activity st st.
Proof. by split. Qed.

Lemma no_new_activity_trans st1 st2 st3 :
  no_new_activity st1 st2 → no_new_activity st2 st3 → no_new_activity st1 st3.
Proof. intros [H1 H2] [H3 H4]. split; [by etrans|auto]. Qed.

Lemma no_new_activity_write l f st :
  (∀ t, is_active (f t) → is_active t) → no_new_activity st (write l f st).
Proof.
  intros Hf. split; [done|]. intros j.
  by apply (deref_write_ind (λ t t', is_active t' → is_active t)).
Qed.

Lemma no_new_activity_tasks st m :
  m `sublist_of` tasks st →
  no_new_activity st (mkServer (heap st) m (engines st)).
Proof. by split. Qed.

Lemma no_new_activity_cancel_task args_taskId now st :
  no_new_activity st (cancel_task args_taskId now st).1.
Proof.
  destruct (cancel_task_state args_taskId now st) as [->|(l & _ & ->)];
    [apply no_new_activity_refl|].
  apply no_new_activity_write. unfold is_active. simpl. naive_solver.
Qed.

Lemma no_new_activity_timer config e now st :
  no_new_activity st (timer config e now st).
Proof.
  destruct (timer_spec config e now st)
    as [->|(taskId & l & i & F & pc & He & -> & Hstarted & HF)];
    [apply no_new_activity_refl|].
  split; [done|]. intros j.
  change (mkServer (alter F l (heap st)) (tasks st)
            (<[e:=mkCoroutine taskId l pc]> (engines st)))
    with (mkServer (heap (write l F st)) (tasks st)
            (<[e:=mkCoroutine taskId l pc]> (engines st))).
  unfold deref at 1. simpl. fold (deref (write l F st) j).
  apply (deref_write_ind (λ t t', is_active t' → is_active t)); [done|].
  intros t. unfold is_active.
  destruct HF as [[-> _]|[_ Hfin]]; [done|].
  destruct (Hfin t) as [->| ->]; naive_solver.
Qed.

Lemma no_new_activity_handleShutdown now st :
  no_new_activity st (handleShutdown now st).
Proof.
  apply (handleShutdown_ind (no_new_activity st));
    [|apply no_new_activity_refl].
  intros st' l Hst'. eapply no_new_activity_trans; [exact Hst'|].
  apply no_new_activity_write. unfold is_active. simpl. naive_solver.
Qed.

Lemma no_new_activity_cleanupOldTasks st :
  no_new_activity st (cleanupOldTasks st).
Proof.
  split; [apply tasks_cleanupOldTasks|].
  intros l. unfold deref. by rewrite heap_cleanupOldTasks.
Qed.

Lemma Map_set_count (P : TaskState → Prop) `{!∀ t, Decision (P t)}
    (g : string * loc → TaskState) m k v :
  (length (filter P (g <$> Map_set m k v))
   ≤ S (length (filter P (g <$> m))))%nat.
Proof.
  induction m as [|[k' v'] m IH]; cbn [Map_set].
  - rewrite fmap_cons, filter_cons. case_decide; cbn [length fmap list_fmap filter list_filter]; lia.
  - destruct (String.eqb k' k); rewrite !fmap_cons, !filter_cons.
    + repeat case_decide; cbn [length]; lia.
    + case_decide; cbn [length]; lia.
Qed.

Lemma admitted_count args_task args_context uuid now st :
  wf st →
  getActiveTaskCount (admitted args_task args_context uuid now st)
  ≤ getActiveTaskCount st + 1.
Proof.
  intros Hwf. unfold getActiveTaskCount, Map_values.
  set (st' := admitted args_task args_context uuid now st).
  assert ((λ e : string * loc, deref st' e.2) <$> tasks st
          = (λ e : string * loc, deref st e.2) <$> tasks st) as Hold.
  { apply Forall_fmap_ext. eapply Forall_impl; [apply (wf_tasks _ Hwf)|].
    intros e He. by apply deref_admitted_old. }
  rewrite <- Hold.
  pose proof (Map_set_count is_active (λ e, deref st' e.2) (tasks st)
                (generateTaskId uuid) (length (heap st))) as Hset.
  change (tasks st') with (Map_set (tasks st) (generateTaskId uuid)
                             (length (heap st))).
  lia.
Qed.

Lemma step_active_count config ev st :
  wf st →
  getActiveTaskCount st ≤ maxConcurrentTasks config →
  getActiveTaskCount (step config ev st).1 ≤ maxConcurrentTasks config.
Proof.
  intros Hwf Hcount.
  assert (∀ st', no_new_activity st st' →
                 getActiveTaskCount st' ≤ maxConcurrentTasks config) as Hquiet.
  { intros st' H%no_new_activity_count. lia. }
  destruct ev as [args_task args_context uuid now| | |taskId now|e now|now|];
    simpl.
  - case_match; [|done].
    destruct (Z.lt_ge_cases (getActiveTaskCount st) (maxConcurrentTasks config)).
    + rewrite delegate_accepted by done. simpl.
      pose proof (admitted_count args_task args_context uuid now st Hwf).
      pose proof (no_new_activity_count _ _
                    (no_new_activity_cleanupOldTasks
                       (admitted args_task args_context uuid now st))).
      lia.
    + by rewrite delegate_rejected.
  - by case_match.
  - by case_match.
  - case_match; [|done].
    pose proof (no_new_activity_cancel_task taskId now st) as Hc.
    apply Hquiet in Hc. by destruct (cancel_task _ _ _).
  - apply Hquiet, no_new_activity_timer.
  - apply Hquiet, no_new_activity_handleShutdown.
  - apply Hquiet. apply (no_new_activity_tasks st []), sublist_nil_l.
Qed.

Lemma run_active_count config evs :
  0 ≤ maxConcurrentTasks config →
  getActiveTaskCount (run config evs init) ≤ maxConcurrentTasks config.
Proof.
  intros Hmax. induction evs as [|ev evs IH] using rev_ind; [done|].
  rewrite run_snoc. apply step_active_count; [apply wf_run, wf_init|done].
Qed.

(** C4: in every state the server reaches from its start, under any
    sequence of calls, timers and signals, the number of tasks in PENDING or
    IN_PROGRESS is at most [maxConcurrentTasks]; a [delegate] call that
    arrives when the number is at the maximum leaves the state as it is (no
    record is created) and is answered with a rejection that carries the
    limit and the current number of active tasks.  With the default limit of
    10, the eleventh of eleven delegations in a row is answered with limit 10
    and current 10. *)
Theorem admission_never_exceeds_cap (config : LiaisonConfig)
    (evs : list Event) :
  0 ≤ maxConcurrentTasks config →
  let st := run config evs init in
  getActiveTaskCount st ≤ maxConcurrentTasks config
  ∧ (∀ args_task args_context uuid now,
       getActiveTaskCount st = maxConcurrentTasks config →
       (step config (CallDelegate args_task args_context uuid now) st).1 = st
       ∧ ∃ r, delegate config args_task args_context uuid now st
              = (st, DelegateLimit r)
              ∧ dr_maxConcurrentTasks r = maxConcurrentTasks config
              ∧ dr_currentActiveTasks r = getActiveTaskCount st)
  ∧ responses DEFAULT_CONFIG (delegations 11) init !! 10%nat
    = Some (Delegated (DelegateLimit
        (mkDelegateRejected "Maximum concurrent tasks reached" 10 10
           "Please wait for some tasks to complete before delegating new ones"))).
Proof.
  intros Hmax st. split_and!.
  - by apply run_active_count.
  - intros args_task args_context uuid now Hfull.
    assert (maxConcurrentTasks config ≤ getActiveTaskCount st) as Hle by lia.
    pose proof (delegate_rejected config args_task args_context uuid now st Hle)
      as Hrej.
    split.
    + simpl. rewrite Hrej. by case_match.
    + eexists. split; [exact Hrej|]. done.
  - vm_compute. reflexivity.
Qed.

Lemma admission_never_exceeds_cap_witness :
  0 ≤ maxConcurrentTasks DEFAULT_CONFIG
  ∧ getActiveTaskCount (run DEFAULT_CONFIG (delegations 10) init)
    ≤ maxConcurrentTasks DEFAULT_CONFIG.
Proof.
  assert (0 ≤ maxConcurrentTasks DEFAULT_CONFIG) as Hmax by (simpl; lia).
  split; [exact Hmax|].
  exact (proj1 (admission_never_exceeds_cap DEFAULT_CONFIG (delegations 10) Hmax)).
Defined.

Lemma list_tasks_bounded_filtered_sorted_witness :
  limit_schema (Some 2) = Some 2
  ∧ Z.of_nat
      (length (lr_tasks (list_tasks (Some COMPLETED) 2
                           (run DEFAULT_CONFIG late_cancel_run init)))) ≤ 2.
Proof.
  split; [reflexivity|].
  exact (proj1 (proj2 (proj2 (proj2
           (list_tasks_bounded_filtered_sorted DEFAULT_CONFIG
              (run DEFAULT_CONFIG late_cancel_run init)
              (Some COMPLETED) (Some 2) 2 eq_refl))))).
Defined.

(** ** The response of delegate and the cancellation race, on the sample runs *)

(** C3: the response to an accepted delegation carries the identifier and
    the creation time of the new task; the status it reports is read from the
    task object after [processTask] has started, so it is IN_PROGRESS, not
    PENDING, for the delegation of "ping" without context. *)
Theorem delegate_ping_reports_in_progress :
  responses DEFAULT_CONFIG ping_run init
  = [Delegated (DelegateOk
       (mkDelegateAccepted "task-a" IN_PROGRESS "ping" None 0
          "Task has been delegated and is pending execution" 300000))].
Proof. vm_compute. reflexivity. Qed.

(** C1: a cancellation that lands after step 4 of 5 and before step 5
    completes sets the status to CANCELLED, and the coroutine, which does not
    read the status again after its last [await], then sets it to
    COMPLETED. *)
Theorem late_cancellation_ends_completed :
  progress (deref (run DEFAULT_CONFIG (take 5 late_cancel_run) init) 0%nat)
  = Some 80
  ∧ responses DEFAULT_CONFIG late_cancel_run init !! 5%nat
    = Some (Cancelled (CancelOk
        (mkCancelDone "task-a" CANCELLED "Task has been cancelled" 4500)))
  ∧ engines (run DEFAULT_CONFIG (take 6 late_cancel_run) init)
    = [mkCoroutine "task-a" 0%nat (Awaiting 4)]
  ∧ status (deref (run DEFAULT_CONFIG late_cancel_run init) 0%nat) = COMPLETED.
Proof. vm_compute. done. Qed.

(** C2: the status of the task along the same run: CANCELLED after the
    cancellation, a terminal state, and COMPLETED after the last timer; with a
    timeout of one second the last timer turns CANCELLED into FAILED. *)
Theorem cancelled_status_is_overwritten :
  status (deref (run DEFAULT_CONFIG (take 6 late_cancel_run) init) 0%nat)
  = CANCELLED
  ∧ status (deref (run DEFAULT_CONFIG (take 7 late_cancel_run) init) 0%nat)
    = COMPLETED
  ∧ status
      (deref (run (mkConfig 10 1000 5000 50000) (take 6 late_cancel_run) init)
         0%nat)
    = CANCELLED
  ∧ status
      (deref (run (mkConfig 10 1000 5000 50000) (take 7 late_cancel_run) init)
         0%nat)
    = FAILED.
Proof. vm_compute. done. Qed.

(** C7: a task cancelled right after its delegation, before any step has
    completed, ends CANCELLED, but the step in flight still writes its
    progress: 0 at the cancellation, 20 afterwards. *)
Theorem early_cancellation_progress_increases :
  (let t := deref (run DEFAULT_CONFIG (take 2 early_cancel_run) init) 0%nat in
   status t = CANCELLED ∧ progress t = Some 0)
  ∧ (let t := deref (run DEFAULT_CONFIG (take 3 early_cancel_run) init) 0%nat in
     status t = CANCELLED ∧ progress t = Some 20)
  ∧ (let t := deref (run DEFAULT_CONFIG early_cancel_run init) 0%nat in
     status t = CANCELLED ∧ progress t = Some 20)
  ∧ engines (run DEFAULT_CONFIG early_cancel_run init)
    = [mkCoroutine "task-a" 0%nat Returned].
Proof. vm_compute. done. Qed.

(** ** Retention *)

(** After 101 delegations, each cancelled before the next, the map holds 101
    records in a terminal state: more than the 100 the cleanup keeps. *)
Lemma retention_exceeded_between_delegations :
  terminal_count (run DEFAULT_CONFIG (cancelled_delegations 101) init) = 101
  ∧ ¬ terminal_count (run DEFAULT_CONFIG (cancelled_delegations 101) init) ≤ 100.
Proof. vm_compute. split; [done|]. intros H. by apply H. Qed.

Lemma filter_Forall_id {A} (P : A → Prop) `{!∀ x, Decision (P x)} l :
  Forall P l → filter P l = l.
Proof.
  induction 1 as [|x l Hx Hl IH]; [done|].
  by rewrite filter_cons_True, IH.
Qed.

Lemma filter_Forall_not {A} (P : A → Prop) `{!∀ x, Decision (P x)} l :
  Forall (λ x, ¬ P x) l → filter P l = [].
Proof.
  induction 1 as [|x l Hx Hl IH]; [done|].
  by rewrite filter_cons_False, IH.
Qed.

Lemma Map_delete_filter (m : TaskMap) k :
  NoDup m.*1 → Map_delete m k = filter (λ e, e.1 ≠ k) m.
Proof.
  induction m as [|[k' v'] m IH]; cbn [Map_delete]; [done|].
  rewrite fmap_cons. intros [Hk' Hm]%NoDup_cons.
  destruct (String.eqb_spec k' k) as [->|Hne].
  - rewrite filter_cons_False by (simpl; auto).
    symmetry. apply filter_Forall_id. apply Forall_forall.
    intros e He Heq. apply Hk'. apply list_elem_of_fmap. by exists e.
  - rewrite filter_cons_True by done. by rewrite IH.
Qed.

Lemma foldl_Map_delete_filter {B} (m : TaskMap) (R : list (string * B)) :
  NoDup m.*1 →
  foldl (λ m e, Map_delete m e.1) m R = filter (λ e, e.1 ∉ R.*1) m.
Proof.
  revert m. induction R as [|r R IH]; intros m Hm; cbn [foldl].
  - symmetry. apply filter_Forall_id, Forall_forall. intros e _.
    apply not_elem_of_nil.
  - rewrite fmap_cons, IH.
    + rewrite Map_delete_filter by done. rewrite list_filter_filter.
      apply list_filter_iff. intros e. rewrite not_elem_of_cons. tauto.
    + eapply sublist_NoDup; [exact Hm|].
      apply fmap_sublist, Map_delete_sublist.
Qed.

Lemma fmap_filter_comm {A B} (f : A → B) (P : B → Prop) (Q : A → Prop)
    `{!∀ x, Decision (P x), !∀ x, Decision (Q x)} (l : list A) :
  (∀ x, P (f x) ↔ Q x) → f <$> filter Q l = filter P (f <$> l).
Proof.
  intros HPQ. induction l as [|x l IH]; [done|].
  rewrite fmap_cons, !filter_cons.
  destruct (decide (Q x)) as [HQ|HQ].
  - rewrite decide_True by by apply HPQ. by rewrite fmap_cons, IH.
  - rewrite decide_False by by rewrite HPQ. done.
Qed.

Lemma NoDup_fst_agree {A B} (l : list (A * B)) e1 e2 :
  NoDup l.*1 → e1 ∈ l → e2 ∈ l → e1.1 = e2.1 → e1 = e2.
Proof.
  induction l as [|e l IH]; [by intros _ ?%elem_of_nil|].
  rewrite fmap_cons. intros [He Hl]%NoDup_cons.
  intros [->|H1]%elem_of_cons [->|H2]%elem_of_cons Heq; auto.
  - exfalso. apply He. rewrite Heq. apply list_elem_of_fmap. by exists e2.
  - exfalso. apply He. rewrite <- Heq. apply list_elem_of_fmap. by exists e1.
Qed.

Lemma keys_Map_entries st : (Map_entries st).*1 = (tasks st).*1.
Proof. unfold Map_entries. rewrite <- list_fmap_compose. done. Qed.

Lemma values_Map_entries st : (Map_entries st).*2 = Map_values st.
Proof. unfold Map_entries, Map_values. rewrite <- list_fmap_compose. done. Qed.

Lemma terminal_count_entries st :
  terminal_count st
  = Z.of_nat (length (filter (λ e, is_terminal e.2) (Map_entries st))).
Proof.
  unfold terminal_count. rewrite <- values_Map_entries.
  rewrite <- (fmap_filter_comm snd is_terminal (λ e, is_terminal e.2)) by done.
  by rewrite length_fmap.
Qed.

Lemma cleanup_completedTasks_perm st :
  cleanup_completedTasks st
  ≡ₚ filter (λ e, is_terminal e.2) (Map_entries st).
Proof. apply (Array_sort_perm (λ e : string * TaskState, updatedAt e.2)). Qed.

Lemma cleanup_completedTasks_sorted st :
  StronglySorted (before (λ e : string * TaskState, updatedAt e.2))
    (cleanup_completedTasks st).
Proof. apply (Array_sort_sorted (λ e : string * TaskState, updatedAt e.2)). Qed.

Lemma terminal_count_completedTasks st :
  terminal_count st = Z.of_nat (length (cleanup_completedTasks st)).
Proof. by rewrite terminal_count_entries, cleanup_completedTasks_perm. Qed.

Section Retention.
Context (st : Server) (Hkeys : NoDup (tasks st).*1).

Lemma tasks_cleanupOldTasks_filter :
  tasks (cleanupOldTasks st)
  = filter (λ e, e.1 ∉ (evicted st).*1) (tasks st).
Proof.
  unfold cleanupOldTasks, evicted. cbv zeta.
  destruct (Z.ltb_spec 100 (Z.of_nat (length (cleanup_completedTasks st))))
    as [Hlt|Hge].
  - rewrite decide_True by lia. simpl.
    change 100 with (Z.of_nat 100). rewrite Array_slice_from_drop.
    by apply foldl_Map_delete_filter.
  - rewrite decide_False by lia. symmetry.
    apply filter_Forall_id, Forall_forall. intros e _. apply not_elem_of_nil.
Qed.

Lemma Map_entries_cleanupOldTasks :
  Map_entries (cleanupOldTasks st)
  = filter (λ e, e.1 ∉ (evicted st).*1) (Map_entries st).
Proof.
  unfold Map_entries at 1. rewrite tasks_cleanupOldTasks_filter.
  unfold deref. rewrite heap_cleanupOldTasks.
  by apply (fmap_filter_comm (λ e : string * loc, (e.1, heap st !!! e.2))).
Qed.

Lemma evicted_subseteq : evicted st ⊆ Map_entries st.
Proof.
  unfold evicted. case_decide; [|apply list_subseteq_nil].
  intros e He%subseteq_drop.
  rewrite cleanup_completedTasks_perm in He.
  by apply list_elem_of_filter in He as [_ ?].
Qed.

Lemma evicted_terminal e : e ∈ evicted st → is_terminal e.2.
Proof.
  unfold evicted. case_decide; [|by intros ?%elem_of_nil].
  intros He%subseteq_drop.
  rewrite cleanup_completedTasks_perm in He.
  by apply list_elem_of_filter in He as [? _].
Qed.

(** An entry is deleted exactly when it is one of [evicted]. *)
Lemma elem_of_cleanupOldTasks e :
  e ∈ Map_entries (cleanupOldTasks st)
  ↔ e ∈ Map_entries st ∧ e ∉ evicted st.
Proof.
  rewrite Map_entries_cleanupOldTasks, list_elem_of_filter.
  split; intros [H1 H2]; split; try done.
  - intros He. apply H1. apply list_elem_of_fmap. by exists e.
  - intros (r & Hr1 & Hr2)%list_elem_of_fmap. apply H2.
    assert (e = r) as ->; [|done].
    apply (NoDup_fst_agree (Map_entries st)); try done.
    + by rewrite keys_Map_entries.
    + by apply evicted_subseteq.
Qed.

Lemma terminal_count_cleanupOldTasks :
  terminal_count (cleanupOldTasks st) = Z.min (terminal_count st) 100.
Proof.
  rewrite (terminal_count_completedTasks st), terminal_count_entries.
  rewrite Map_entries_cleanupOldTasks, list_filter_filter.
  rewrite (list_filter_iff _ (λ e, (e.1 ∉ (evicted st).*1) ∧ is_terminal e.2))
    by (intros; tauto).
  rewrite <- list_filter_filter, <- cleanup_completedTasks_perm.
  assert (NoDup (cleanup_completedTasks st).*1) as Hnodup.
  { rewrite cleanup_completedTasks_perm.
    eapply sublist_NoDup; [|apply fmap_sublist, sublist_filter].
    by rewrite keys_Map_entries. }
  unfold evicted. case_decide as Hlen.
  - set (C := cleanup_completedTasks st) in *.
    assert (filter (λ e, e.1 ∉ (drop 100 C).*1) C = take 100 C) as ->.
    { rewrite <- (take_drop 100 C), fmap_app in Hnodup.
      apply NoDup_app in Hnodup as (_ & Hdisjoint & _).
      transitivity (filter (λ e, e.1 ∉ (drop 100 C).*1)
                      (take 100 C ++ drop 100 C)%list).
      { by rewrite take_drop. }
      rewrite filter_app, filter_Forall_id, filter_Forall_not.
      - by rewrite app_nil_r.
      - apply Forall_forall. intros e He Hne. apply Hne.
        apply list_elem_of_fmap. by exists e.
      - apply Forall_forall. intros e He. apply Hdisjoint.
        apply list_elem_of_fmap. by exists e. }
    rewrite length_take. lia.
  - rewrite filter_Forall_id; [lia|].
    apply Forall_forall. intros e _. apply not_elem_of_nil.
Qed.

(** The deleted entries are not more recent than the terminal ones kept. *)
Lemma evicted_oldest r k :
  r ∈ evicted st →
  k ∈ Map_entries (cleanupOldTasks st) → is_terminal k.2 →
  updatedAt r.2 ≤ updatedAt k.2.
Proof.
  intros Hr [Hk Hnot]%elem_of_cleanupOldTasks Hterminal.
  unfold evicted in *. case_decide; [|by apply elem_of_nil in Hr].
  assert (k ∈ cleanup_completedTasks st) as Hin.
  { rewrite cleanup_completedTasks_perm. by apply list_elem_of_filter. }
  rewrite <- (take_drop 100 (cleanup_completedTasks st)) in Hin.
  apply elem_of_app in Hin as [Hin|Hin]; [|done].
  pose proof (cleanup_completedTasks_sorted st) as Hsorted.
  rewrite <- (take_drop 100 (cleanup_completedTasks st)) in Hsorted.
  apply (StronglySorted_app_1_elem_of _ _ _ _ _ Hsorted Hin Hr).
Qed.
End Retention.

(** C6, as the code has it: the records in a terminal state are bounded
    when a delegation has been admitted, not at all times.  When [delegate]
    has admitted a task, it leaves at most 100 records in a terminal state
    (100 is fixed, not configured): if there were more, exactly the 100 most
    recently updated are kept.  No record that is not in a terminal state is
    deleted, no record appears, and every deleted record is in a terminal
    state and was updated no later than every terminal record kept. *)
Theorem retention_after_admission (config : LiaisonConfig) (evs : list Event)
    (args_task : string) (args_context : option string) (uuid : string)
    (now : Z) :
  let st := run config evs init in
  let mid := admitted args_task args_context uuid now st in
  let st' := (delegate config args_task args_context uuid now st).1 in
  getActiveTaskCount st < maxConcurrentTasks config →
  st' = cleanupOldTasks mid
  ∧ terminal_count st' = Z.min (terminal_count mid) 100
  ∧ terminal_count st' ≤ 100
  ∧ (∀ e, e ∈ Map_entries mid → ¬ is_terminal e.2 → e ∈ Map_entries st')
  ∧ (∀ e, e ∈ Map_entries st' → e ∈ Map_entries mid)
  ∧ (∀ r, r ∈ Map_entries mid → r ∉ Map_entries st' →
          is_terminal r.2
          ∧ ∀ k, k ∈ Map_entries st' → is_terminal k.2 →
                 updatedAt r.2 ≤ updatedAt k.2).
Proof.
  intros st mid st' Hcount.
  assert (st' = cleanupOldTasks mid) as Hst'.
  { subst st'. by rewrite delegate_accepted. }
  assert (NoDup (tasks mid).*1) as Hkeys.
  { apply wf_keys, wf_admitted, wf_run, wf_init. }
  rewrite Hst'. split_and!.
  - done.
  - by apply terminal_count_cleanupOldTasks.
  - rewrite terminal_count_cleanupOldTasks by done. lia.
  - intros e He Hterminal. apply elem_of_cleanupOldTasks; [done|].
    split; [done|]. intros Hev. by apply Hterminal, (evicted_terminal mid).
  - intros e He. by apply elem_of_cleanupOldTasks in He as [? _].
  - intros r Hr Hgone.
    assert (r ∈ evicted mid) as Hev.
    { destruct (decide (r ∈ evicted mid)) as [|Hno]; [done|].
      exfalso. apply Hgone. by apply elem_of_cleanupOldTasks. }
    split; [by apply (evicted_terminal mid)|].
    intros k Hk Hterminal. by apply (evicted_oldest mid).
Qed.

Lemma retention_after_admission_witness :
  getActiveTaskCount (run DEFAULT_CONFIG (cancelled_delegations 101) init)
  < maxConcurrentTasks DEFAULT_CONFIG
  ∧ terminal_count
      (delegate DEFAULT_CONFIG "work" None "z" 200
         (run DEFAULT_CONFIG (cancelled_delegations 101) init)).1 ≤ 100.
Proof.
  assert (getActiveTaskCount (run DEFAULT_CONFIG (cancelled_delegations 101) init)
          < maxConcurrentTasks DEFAULT_CONFIG) as Hcount
    by (vm_compute; reflexivity).
  split; [exact Hcount|].
  exact (proj1 (proj2 (proj2
           (retention_after_admission DEFAULT_CONFIG (cancelled_delegations 101)
              "work" None "z" 200 Hcount)))).
Defined.

(** ** COMPLETED and FAILED are final *)

Lemma deref_foldl_cancel now ls st l :
  Forall (λ l', l' ≠ l) ls →
  deref (foldl (λ st task,
                  let st := write task (set_status CANCELLED) st in
                  write task (set_updatedAt now) st) st ls) l
  = deref st l.
Proof.
  revert st. induction ls as [|l' ls IH]; intros st; [done|].
  intros [Hne Hls]%Forall_cons. cbn [foldl]. rewrite IH by done.
  cbv zeta. by rewrite !deref_write_ne.
Qed.

Lemma engines_handleShutdown now st :
  engines (handleShutdown now st) = engines st.
Proof. by apply (handleShutdown_ind (λ st', engines st' = engines st)). Qed.

Lemma terminal_allocated st l :
  is_terminal (deref st l) → (l < length (heap st))%nat.
Proof.
  intros Hterminal.
  destruct (Nat.lt_ge_cases l (length (heap st))) as [|Hge]; [done|].
  exfalso. unfold deref in Hterminal.
  rewrite list_lookup_total_alt, lookup_ge_None_2 in Hterminal by done.
  unfold is_terminal in Hterminal. simpl in Hterminal. naive_solver.
Qed.

Lemma terminal_not_active t : is_terminal t → ¬ is_active t.
Proof. by intros ?%not_active_terminal. Qed.

(** No event changes a property of a finished task object, and it stays
    finished. *)
Lemma finished_step config ev st l :
  wf st → finished st l →
  deref (step config ev st).1 l = deref st l ∧ finished (step config ev st).1 l.
Proof.
  intros Hwf [Hterminal Hengines].
  pose proof (terminal_not_active _ Hterminal) as Hidle.
  pose proof (terminal_allocated _ _ Hterminal) as Hl.
  assert (∀ st', deref st' l = deref st l → engines st' = engines st →
                 deref st' l = deref st l ∧ finished st' l) as Hsame.
  { intros st' Hd He. split; [done|]. split; [by rewrite Hd|by rewrite He]. }
  destruct ev as [args_task args_context uuid now| | |taskId now|e now|now|];
    simpl.
  - case_match; [|by apply Hsame].
    destruct (Z.lt_ge_cases (getActiveTaskCount st) (maxConcurrentTasks config)).
    + rewrite delegate_accepted by done. simpl.
      assert (deref (cleanupOldTasks (admitted args_task args_context uuid now st)) l
              = deref st l) as Hd.
      { unfold deref at 1. rewrite heap_cleanupOldTasks.
        by apply deref_admitted_old. }
      split; [done|]. split; [by rewrite Hd|].
      rewrite engines_cleanupOldTasks. simpl. apply Forall_app.
      split; [done|]. apply Forall_singleton. simpl. lia.
    + rewrite delegate_rejected by done. by apply Hsame.
  - case_match; by apply Hsame.
  - case_match; by apply Hsame.
  - case_match; [|by apply Hsame].
    destruct (cancel_task_state taskId now st) as [Heq|(l' & Hactive & Heq)];
      destruct (cancel_task _ _ _) as [st' r]; simpl in *; subst st';
      apply Hsame; try done.
    apply deref_write_ne. by intros ->.
  - destruct (timer_spec config e now st)
      as [->|(taskId & l' & i & F & pc & He & -> & _)]; [by apply Hsame|].
    assert (l' ≠ l) as Hne.
    { intros ->. by pose proof (Forall_lookup_1 _ _ _ _ Hengines He eq_refl). }
    assert (deref (mkServer (alter F l' (heap st)) (tasks st)
                     (<[e:=mkCoroutine taskId l' pc]> (engines st))) l
            = deref st l) as Hd.
    { unfold deref. simpl. by apply list_lookup_total_alter_ne. }
    split; [done|]. split; [by rewrite Hd|]. simpl.
    by apply Forall_insert.
  - apply Hsame; [|apply engines_handleShutdown].
    unfold handleShutdown. apply deref_foldl_cancel.
    apply Forall_forall. intros l' [Hactive _]%list_elem_of_filter. by intros ->.
  - by apply Hsame.
Qed.

Lemma run_cons config ev evs st :
  run config (ev :: evs) st = run config evs (step config ev st).1.
Proof. done. Qed.

Lemma finished_run config evs st l :
  wf st → finished st l → deref (run config evs st) l = deref st l.
Proof.
  revert st. induction evs as [|ev evs IH]; intros st Hwf Hfinished; [done|].
  rewrite run_cons.
  destruct (finished_step config ev st l Hwf Hfinished) as [Hstep Hnext].
  rewrite IH; [done|by apply wf_step|done].
Qed.

(** A COMPLETED or FAILED task object has no suspended [processTask]: once
    a task is COMPLETED or FAILED, no event changes any of its properties. *)
Lemma settled_finished st l : wf st → settled (deref st l) → finished st l.
Proof.
  intros Hwf Hsettled. split.
  - unfold settled, is_terminal in *. naive_solver.
  - eapply Forall_impl; [apply (wf_awaiting _ Hwf)|].
    intros c Hc <-. unfold awaiting_ok, settled in *.
    destruct (co_pc c); [|done].
    destruct Hc as (_ & [H|H] & _); rewrite H in Hsettled; naive_solver.
Qed.

Lemma settled_frozen_run config evs st l :
  wf st → settled (deref st l) → deref (run config evs st) l = deref st l.
Proof. intros Hwf Hsettled. by apply finished_run, settled_finished. Qed.

(** ** Cancellation seen by processTask *)

(** A cancellation that [processTask] finds at the head of an iteration:
    resumed from an [await] that is not the last, with its task CANCELLED and
    still the one in the map (or deleted from it), the coroutine returns, and
    the task stays CANCELLED, with the progress of the step that was in
    flight, under every later event. *)
Lemma cancellation_seen_at_loop_head config e taskId l i now st :
  wf st →
  engines st !! e = Some (mkCoroutine taskId l (Awaiting i)) →
  (S i < steps)%nat →
  Map_get (tasks st) taskId = Some l ∨ Map_get (tasks st) taskId = None →
  status (deref st l) = CANCELLED →
  let st' := (step config (Timer e now) st).1 in
  engines st' !! e = Some (mkCoroutine taskId l Returned)
  ∧ ∀ evs, let t := deref (run config evs st') l in
           status t = CANCELLED
           ∧ progress t = Some (round_percent (Z.of_nat i + 1) (Z.of_nat steps)).
Proof.
  intros Hwf He Hi Hmap Hcancelled st'.
  pose proof (Forall_lookup_1 _ _ _ _ (wf_engines _ Hwf) He) as Hl.
  simpl in Hl.
  assert (st' = mkServer
                  (alter (set_updatedAt now
                          ∘ set_progress (round_percent (Z.of_nat i + 1)
                                            (Z.of_nat steps))) l (heap st))
                  (tasks st) (<[e:=mkCoroutine taskId l Returned]> (engines st)))
    as Hst'.
  { subst st'. simpl. unfold timer. rewrite He.
    unfold after_await, loop_head. rewrite write_write.
    destruct (Nat.ltb_spec (S i) steps) as [_|?]; [|lia].
    unfold tasks_get. cbn [tasks write].
    destruct Hmap as [-> | ->]; [|done]. simpl.
    rewrite deref_write_eq by done. simpl.
    by rewrite decide_True by done. }
  assert (deref st' l
          = set_updatedAt now
              (set_progress (round_percent (Z.of_nat i + 1) (Z.of_nat steps))
                 (deref st l))) as Hd.
  { rewrite Hst'. unfold deref. simpl.
    by rewrite list_lookup_total_alter_eq. }
  split.
  - rewrite Hst'. simpl. apply list_lookup_insert_eq.
    by eapply lookup_lt_Some.
  - intros evs t. subst t. rewrite finished_run.
    + by rewrite Hd.
    + subst st'. by apply wf_step.
    + split; [rewrite Hd; right; right; done|].
      rewrite Hst'. simpl. apply Forall_lookup. intros e' c' Hc' Hco.
      apply list_lookup_insert_Some in Hc' as [(_ & <- & _)|(Hne & Hc')];
        [done|].
      exfalso. apply Hne.
      eapply (NoDup_lookup _ _ _ _ (wf_engines_nodup _ Hwf));
        rewrite list_lookup_fmap; [by rewrite He|].
      rewrite Hc'. simpl. by rewrite Hco.
Qed.

(** ** Timeout *)

(** The last continuation of [processTask], when the timeout has passed. *)
Lemma last_step_times_out config taskId l now st started :
  (l < length (heap st))%nat →
  startedAt (deref st l) = Some started →
  taskTimeoutMs config < now - started →
  ∃ st', after_await config taskId l (steps - 1) now st = (st', Returned)
         ∧ deref st' l
           = set_error (timeout_message config)
               (set_updatedAt now
                  (set_completedAt now
                     (set_status FAILED
                        (set_updatedAt now (set_progress 100 (deref st l)))))).
Proof.
  intros Hl Hstarted Hlate. unfold after_await, loop_head.
  change (S (steps - 1) <? steps)%nat with false. cbv iota.
  unfold check_timeout. rewrite !write_write, deref_write_eq by done.
  simpl. rewrite Hstarted.
  destruct (Z.ltb_spec (taskTimeoutMs config) (now - started)); [|lia].
  eexists. split; [reflexivity|].
  rewrite !write_write, deref_write_eq by done. reflexivity.
Qed.

(** C5: when the last step of a task finishes (its [processTask] is
    resumed from the [await] of the last iteration) and the time since
    [startedAt] exceeds [taskTimeoutMs], the task becomes FAILED, with the
    timeout message as [error] and with [completedAt] set, and it stays so
    under every later event: it never ends in COMPLETED. *)
Theorem timeout_forces_failed (config : LiaisonConfig) (evs : list Event)
    (e : nat) (taskId : string) (l : loc) (now : Z) :
  let st := run config evs init in
  engines st !! e = Some (mkCoroutine taskId l (Awaiting (steps - 1))) →
  ∃ started,
    startedAt (deref st l) = Some started
    ∧ (taskTimeoutMs config < now - started →
       let st' := (step config (Timer e now) st).1 in
       status (deref st' l) = FAILED
       ∧ error (deref st' l) = Some (timeout_message config)
       ∧ completedAt (deref st' l) = Some now
       ∧ ∀ evs', let t := deref (run config evs' st') l in
                 status t = FAILED
                 ∧ error t = Some (timeout_message config)
                 ∧ completedAt t = Some now).
Proof.
  intros st He.
  assert (wf st) as Hwf by apply wf_run, wf_init.
  pose proof (Forall_lookup_1 _ _ _ _ (wf_awaiting _ Hwf) He) as Hawait.
  pose proof (Forall_lookup_1 _ _ _ _ (wf_engines _ Hwf) He) as Hl.
  unfold awaiting_ok in Hawait. simpl in Hawait, Hl.
  destruct Hawait as (_ & _ & [started Hstarted]).
  exists started. split; [done|]. intros Hlate st'.
  destruct (last_step_times_out config taskId l now st started Hl Hstarted Hlate)
    as (st1 & Hrun & Hderef).
  assert (deref st' l = deref st1 l) as Hst'.
  { subst st'. simpl. unfold timer. rewrite He, Hrun. done. }
  assert (status (deref st' l) = FAILED
          ∧ error (deref st' l) = Some (timeout_message config)
          ∧ completedAt (deref st' l) = Some now) as Hnow.
  { by rewrite Hst', Hderef. }
  split_and!; try apply Hnow.
  intros evs' t. subst t.
  rewrite settled_frozen_run; [done| |right; apply Hnow].
  subst st'. by apply wf_step.
Qed.

Lemma timeout_forces_failed_witness :
  engines (run (mkConfig 10 1000 5000 50000) (take 5 late_cancel_run) init) !! 0%nat
  = Some (mkCoroutine "task-a" 0%nat (Awaiting (steps - 1)))
  ∧ status
      (deref
         (step (mkConfig 10 1000 5000 50000) (Timer 0 5000)
            (run (mkConfig 10 1000 5000 50000) (take 5 late_cancel_run) init)).1
         0%nat)
    = FAILED.
Proof.
  assert (engines (run (mkConfig 10 1000 5000 50000) (take 5 late_cancel_run) init)
            !! 0%nat
          = Some (mkCoroutine "task-a" 0%nat (Awaiting (steps - 1)))) as He
    by reflexivity.
  split; [exact He|].
  destruct (timeout_forces_failed (mkConfig 10 1000 5000 50000)
              (take 5 late_cancel_run) 0%nat "task-a" 0%nat 5000 He)
    as (started & Hstarted & H).
  assert (started = 0) as -> by (vm_compute in Hstarted; congruence).
  apply H. simpl. lia.
Defined.

(** * Further properties of the server *)

(** ** What one event does to a task object *)

Lemma timer_cases config e now st taskId l i :
  engines st !! e = Some (mkCoroutine taskId l (Awaiting i)) →
  (l < length (heap st))%nat →
  ∃ F pc,
    timer config e now st
    = mkServer (alter F l (heap st)) (tasks st)
        (<[e := mkCoroutine taskId l pc]> (engines st))
    ∧ (((S i < steps)%nat ∧ F = progressed i now
        ∧ (pc = Returned ∨ pc = Awaiting (S i)))
       ∨ (¬ (S i < steps)%nat ∧ pc = Returned
          ∧ check_timeout config now (progressed i now (deref st l)) = None
          ∧ F = completed_at now ∘ progressed i now)
       ∨ (¬ (S i < steps)%nat ∧ pc = Returned
          ∧ ∃ message,
              check_timeout config now (progressed i now (deref st l))
              = Some message
              ∧ F = failed_at now message ∘ progressed i now)).
Proof.
  intros He Hl. unfold timer. rewrite He.
  unfold after_await, loop_head. rewrite write_write.
  destruct (Nat.ltb_spec (S i) steps) as [Hlt|Hge].
  - destruct (tasks_get _ taskId) as [cur|]; [case_decide|].
    all: eexists _, _; split; [reflexivity|]; left; split; [done|].
    all: split; [reflexivity|]; auto.
  - rewrite deref_write_eq by done.
    change ((set_updatedAt now
             ∘ set_progress (round_percent (Z.of_nat i + 1) (Z.of_nat steps)))
              (deref st l)) with (progressed i now (deref st l)).
    destruct (check_timeout config now (progressed i now (deref st l)))
      as [message|] eqn:Hcheck; rewrite !write_write.
    + eexists _, _; split; [reflexivity|]. right. right.
      split; [lia|]. split; [done|]. exists message. by split.
    + eexists _, _; split; [reflexivity|]. right. left.
      split; [lia|]. by split_and!.
Qed.

Lemma deref_handleShutdown now st l :
  deref (handleShutdown now st) l
  = if decide (is_active (deref st l) ∧ l ∈ (tasks st).*2
               ∧ (l < length (heap st))%nat)
    then cancelled_at now (deref st l) else deref st l.
Proof.
  unfold handleShutdown.
  assert (∀ ls st0,
            deref (foldl (λ st task,
                            let st := write task (set_status CANCELLED) st in
                            write task (set_updatedAt now) st) st0 ls) l
            = if decide (l ∈ ls ∧ (l < length (heap st0))%nat)
              then cancelled_at now (deref st0 l) else deref st0 l) as Hfold.
  { induction ls as [|l' ls IH]; intros st0; cbn [foldl].
    - rewrite decide_False; [done|]. intros [?%elem_of_nil _]. done.
    - rewrite IH. cbv zeta. rewrite write_write.
      rewrite length_heap_write, deref_write.
      fold (cancelled_at now).
      clear IH. destruct (decide (l' = l)) as [->|Hne];
        repeat case_decide; try done; exfalso;
        rewrite ?elem_of_cons in *; naive_solver. }
  rewrite Hfold. apply decide_ext.
  rewrite list_elem_of_filter. unfold deref. naive_solver.
Qed.

Lemma tasks_handleShutdown now st : tasks (handleShutdown now st) = tasks st.
Proof. by apply (handleShutdown_ind (λ st', tasks st' = tasks st)). Qed.

Lemma length_heap_handleShutdown now st :
  length (heap (handleShutdown now st)) = length (heap st).
Proof.
  apply (handleShutdown_ind (λ st', length (heap st') = length (heap st)));
    [|done].
  intros st' l' <-. apply length_heap_write.
Qed.

(** Every event changes a task object in one of the ways of [obj_step]. *)
Lemma step_obj config ev st l :
  wf st → (l < length (heap st))%nat →
  obj_step config st l (event_time ev) (deref st l)
    (deref (step config ev st).1 l).
Proof.
  intros Hwf Hl.
  destruct ev as [args_task args_context uuid now| | |taskId now|e now|now|];
    simpl; try (repeat case_match; by constructor).
  - case_match; [|constructor].
    destruct (Z.lt_ge_cases (getActiveTaskCount st) (maxConcurrentTasks config)).
    + rewrite delegate_accepted by done. simpl.
      unfold deref at 2. rewrite heap_cleanupOldTasks.
      fold (deref (admitted args_task args_context uuid now st) l).
      rewrite deref_admitted_old by done. constructor.
    + rewrite delegate_rejected by done. constructor.
  - case_match; [|constructor].
    destruct (cancel_task_state taskId now st) as [Heq|(l' & Hactive & Heq)];
      destruct (cancel_task _ _ _) as [st' r]; simpl in *; subst st';
      [constructor|].
    rewrite deref_write. case_decide as Hc; [|constructor].
    destruct Hc as [-> _]. by constructor.
  - destruct (engines st !! e) as [[taskId l' [i|]]|] eqn:He.
    + pose proof (Forall_lookup_1 _ _ _ _ (wf_engines _ Hwf) He) as Hl'.
      simpl in Hl'.
      destruct (timer_cases config e now st taskId l' i He Hl')
        as (F & pc & -> & Hcases).
      unfold deref at 2. simpl. rewrite list_lookup_total_alter.
      case_decide as Hc; [|constructor]. destruct Hc as [-> _].
      fold (deref st l).
      destruct Hcases as [(Hi & -> & _)|[(Hi & _ & Hcheck & ->)
                                        |(Hi & _ & message & Hcheck & ->)]].
      * by eapply obj_progress.
      * by eapply obj_complete.
      * by eapply obj_fail.
    + unfold timer. rewrite He. constructor.
    + unfold timer. rewrite He. constructor.
  - rewrite deref_handleShutdown. case_decide as Hc; [|constructor].
    destruct Hc as (Hactive & _). by constructor.
Qed.

(** No event changes the identifier, the description, the context, the
    creation time or the start time of a task object. *)
Lemma obj_step_frame config st l clock t t' :
  obj_step config st l clock t t' →
  id t' = id t ∧ task t' = task t ∧ context t' = context t
  ∧ createdAt t' = createdAt t ∧ startedAt t' = startedAt t.
Proof. by intros []. Qed.

Lemma round_percent_steps i :
  (i ≤ steps)%nat →
  round_percent (Z.of_nat i) (Z.of_nat steps) = 20 * Z.of_nat i.
Proof.
  unfold steps. intros Hi.
  do 6 (destruct i as [|i]; [reflexivity|]). lia.
Qed.

Lemma progressed_progress i now t :
  progress (progressed i now t)
  = Some (round_percent (Z.of_nat (S i)) (Z.of_nat steps)).
Proof. unfold progressed. simpl. by rewrite Nat2Z.inj_succ, Z.add_1_r. Qed.

Lemma percent_ok_steps i : (i ≤ steps)%nat → percent_ok (20 * Z.of_nat i).
Proof.
  unfold steps, percent_ok. intros Hi.
  do 6 (destruct i as [|i]; [simpl; tauto|]). lia.
Qed.

Lemma check_timeout_message config now t message :
  is_Some (startedAt t) →
  check_timeout config now t = Some message →
  message = timeout_message config.
Proof.
  intros [s Hs]. unfold check_timeout. rewrite Hs.
  case_match; by intros [=].
Qed.

Lemma record_ok_obj_step config st l clock t' :
  wf st → record_ok config (deref st l) →
  obj_step config st l clock (deref st l) t' → record_ok config t'.
Proof.
  intros Hwf Hok Hstep.
  pose proof Hok as (Hstarted & (p & Hp & Hpercent) & Hshape).
  assert (∀ e taskId i,
            engines st !! e = Some (mkCoroutine taskId l (Awaiting i)) →
            (i < steps)%nat
            ∧ (status (deref st l) = IN_PROGRESS
               ∨ status (deref st l) = CANCELLED)) as Hengine.
  { intros e taskId i He.
    pose proof (Forall_lookup_1 _ _ _ _ (wf_awaiting _ Hwf) He) as Hawait.
    unfold awaiting_ok in Hawait. simpl in Hawait. tauto. }
  assert (∀ e taskId i,
            engines st !! e = Some (mkCoroutine taskId l (Awaiting i)) →
            completedAt (deref st l) = None ∧ result (deref st l) = None
            ∧ error (deref st l) = None) as Hfresh.
  { intros e taskId i He. destruct (Hengine _ _ _ He) as [_ [Hs|Hs]];
      by rewrite Hs in Hshape. }
  inversion Hstep as [|now _ Hactive|e taskId i now _ He Hi
                     |e taskId i now _ He Hi Hcheck
                     |e taskId i now message _ He Hi Hcheck]; subst.
  - done.
  - unfold is_active in Hactive. split; [done|]. split; [by exists p|].
    simpl. destruct (status (deref st l)); naive_solver.
  - destruct (Hengine _ _ _ He) as [_ Hstatus].
    split; [done|]. split.
    + rewrite progressed_progress. eexists. split; [done|].
      rewrite round_percent_steps by lia. apply percent_ok_steps. lia.
    + simpl. destruct (Hfresh _ _ _ He) as (? & ? & ?).
      by destruct Hstatus as [-> | ->].
  - destruct (Hengine _ _ _ He) as [Hlt _].
    destruct (Hfresh _ _ _ He) as (? & ? & ?).
    split; [done|]. split; [exists 100; split; [done|do 5 right; done]|].
    simpl. by split_and!.
  - destruct (Hengine _ _ _ He) as [Hlt _].
    destruct (Hfresh _ _ _ He) as (? & ? & ?).
    assert (i = 4%nat) as -> by (unfold steps in *; lia).
    apply check_timeout_message in Hcheck as ->; [|done].
    split; [done|]. split; [exists 100; split; [done|do 5 right; done]|].
    simpl. by split_and!.
Qed.

(** The heap after an event: the same objects, or one more, the task
    [delegate] has admitted. *)
Lemma heap_step config ev st :
  length (heap (step config ev st).1) = length (heap st)
  ∨ ∃ args_task args_context uuid now,
      ev = CallDelegate args_task args_context uuid now
      ∧ delegate_schema config args_task args_context = true
      ∧ getActiveTaskCount st < maxConcurrentTasks config
      ∧ (step config ev st).1
        = cleanupOldTasks (admitted args_task args_context uuid now st).
Proof.
  destruct ev as [args_task args_context uuid now| | |taskId now|e now|now|];
    simpl; try (repeat case_match; by left).
  - destruct (delegate_schema config args_task args_context) eqn:Hschema;
      [|by left].
    destruct (Z.lt_ge_cases (getActiveTaskCount st) (maxConcurrentTasks config)).
    + right. exists args_task, args_context, uuid, now.
      rewrite delegate_accepted by done. done.
    + left. by rewrite delegate_rejected.
  - case_match; [|by left].
    destruct (cancel_task_state taskId now st) as [Heq|(l' & _ & Heq)];
      destruct (cancel_task _ _ _) as [st' r]; simpl in *; subst st';
      left; [done|apply length_heap_write].
  - left. destruct (timer_spec config e now st)
      as [->|(taskId & l' & i & F & pc & _ & -> & _)]; [done|].
    simpl. apply length_alter.
  - left. apply length_heap_handleShutdown.
Qed.

Lemma within_schema_started config args_task args_context taskId now :
  delegate_schema config args_task args_context = true →
  within_schema config (started_task taskId args_task args_context now).
Proof.
  unfold delegate_schema, within_schema. simpl.
  rewrite !andb_true_iff, !Z.leb_le. intros [[H1 H2] H3].
  split; [done|]. intros c ->. by apply Z.leb_le.
Qed.

Lemma record_ok_started config args_task args_context taskId now :
  record_ok config (started_task taskId args_task args_context now).
Proof.
  unfold record_ok. simpl. split_and!; try done.
  exists 0. split; [done|by left].
Qed.

(** A property of task objects that holds of a newly started task and that
    every change of [obj_step] keeps, holds of the heap after an event. *)
Lemma Forall_heap_step (P : TaskState → Prop) config ev st :
  wf st →
  (∀ args_task args_context uuid now,
     ev = CallDelegate args_task args_context uuid now →
     delegate_schema config args_task args_context = true →
     P (started_task (generateTaskId uuid) args_task args_context now)) →
  (∀ l t', (l < length (heap st))%nat → P (deref st l) →
           obj_step config st l (event_time ev) (deref st l) t' → P t') →
  Forall P (heap st) → Forall P (heap (step config ev st).1).
Proof.
  intros Hwf Hnew Hkeep Hheap.
  apply (@Forall_lookup_total_2 _ P TaskState_inhabited).
  intros l Hl.
  destruct (Nat.lt_ge_cases l (length (heap st))) as [Hold|Hge].
  - apply (Hkeep l); [done| |by apply step_obj].
    unfold deref. by apply Forall_lookup_total_1.
  - destruct (heap_step config ev st)
      as [Hlen|(args_task & args_context & uuid & now & Hev & Hschema & _ & Heq)];
      [lia|].
    rewrite Heq in Hl |- *. rewrite heap_cleanupOldTasks in Hl |- *.
    unfold admitted in Hl |- *. simpl in Hl |- *.
    rewrite length_app in Hl. simpl in Hl.
    assert (l = length (heap st)) as -> by lia.
    rewrite list_lookup_total_middle by done. by apply Hnew.
Qed.


(** The map after an event: entries of the map before, or the entry of the
    task [delegate] has admitted. *)
Lemma tasks_step config ev st e :
  e ∈ tasks (step config ev st).1 →
  e ∈ tasks st
  ∨ ∃ args_task args_context uuid now,
      ev = CallDelegate args_task args_context uuid now
      ∧ delegate_schema config args_task args_context = true
      ∧ getActiveTaskCount st < maxConcurrentTasks config
      ∧ e = (generateTaskId uuid, length (heap st)).
Proof.
  destruct ev as [args_task args_context uuid now| | |taskId now|e' now|now|];
    simpl; try (repeat case_match; by left).
  - destruct (delegate_schema config args_task args_context) eqn:Hschema;
      [|by left].
    destruct (Z.lt_ge_cases (getActiveTaskCount st) (maxConcurrentTasks config)).
    + rewrite delegate_accepted by done. simpl.
      intros He.
      pose proof (elem_of_sublist _ _ _ He
                    (tasks_cleanupOldTasks
                       (admitted args_task args_context uuid now st))) as He'.
      apply Map_set_elem_of in He' as [->|He']; [right|by left].
      by exists args_task, args_context, uuid, now.
    + rewrite delegate_rejected by done. by left.
  - case_match; [|by left].
    destruct (cancel_task_state taskId now st) as [Heq|(l' & _ & Heq)];
      destruct (cancel_task _ _ _) as [st' r]; simpl in *; subst st';
      by left.
  - destruct (timer_spec config e' now st)
      as [->|(taskId & l' & i & F & pc & _ & -> & _)]; by left.
  - rewrite tasks_handleShutdown. by left.
  - by intros ?%elem_of_nil.
Qed.

Lemma deref_step_new config args_task args_context uuid now st :
  delegate_schema config args_task args_context = true →
  getActiveTaskCount st < maxConcurrentTasks config →
  deref (step config (CallDelegate args_task args_context uuid now) st).1
    (length (heap st))
  = started_task (generateTaskId uuid) args_task args_context now.
Proof.
  intros Hschema Hcount. simpl. rewrite Hschema.
  rewrite delegate_accepted by done. simpl.
  unfold deref. rewrite heap_cleanupOldTasks. apply deref_admitted_new.
Qed.

Lemma coroutine_ok_frame st st' c :
  id (deref st' (co_task c)) = id (deref st (co_task c)) →
  progress (deref st' (co_task c)) = progress (deref st (co_task c)) →
  coroutine_ok st c → coroutine_ok st' c.
Proof. unfold coroutine_ok. by intros -> ->. Qed.

Lemma coroutines_step config ev st :
  wf st → Forall (coroutine_ok st) (engines st) →
  Forall (coroutine_ok (step config ev st).1) (engines (step config ev st).1).
Proof.
  intros Hwf Hok.
  assert (∀ st', engines st' = engines st →
                 (∀ l, id (deref st' l) = id (deref st l)
                       ∧ progress (deref st' l) = progress (deref st l)) →
                 Forall (coroutine_ok st') (engines st')) as Hframe.
  { intros st' -> Hsame. eapply Forall_impl; [exact Hok|].
    intros c. apply coroutine_ok_frame; apply Hsame. }
  destruct ev as [args_task args_context uuid now| | |taskId now|e now|now|];
    simpl; try (repeat case_match; done).
  - case_match; [|done].
    destruct (Z.lt_ge_cases (getActiveTaskCount st) (maxConcurrentTasks config));
      [|by rewrite delegate_rejected].
    rewrite delegate_accepted by done. simpl.
    rewrite engines_cleanupOldTasks. simpl. apply Forall_app. split.
    + apply Forall_forall. intros c Hc.
      pose proof (proj1 (Forall_forall _ _) Hok c Hc) as Hcok.
      pose proof (proj1 (Forall_forall _ _) (wf_engines _ Hwf) c Hc) as Hl.
      simpl in Hl. revert Hcok.
      apply coroutine_ok_frame; unfold deref; rewrite heap_cleanupOldTasks;
        fold (deref (admitted args_task args_context uuid now st) (co_task c));
        by rewrite deref_admitted_old.
    + apply Forall_singleton. unfold coroutine_ok. simpl.
      unfold deref. rewrite heap_cleanupOldTasks.
      fold (deref (admitted args_task args_context uuid now st)
              (length (heap st))).
      by rewrite deref_admitted_new.
  - case_match; [|done].
    destruct (cancel_task_state taskId now st) as [Heq|(l' & _ & Heq)];
      destruct (cancel_task _ _ _) as [st' r]; simpl in *; subst st';
      [done|].
    apply Hframe; [done|]. intros l.
    by apply (deref_write_ind
                (λ t t', id t' = id t ∧ progress t' = progress t)).
  - destruct (engines st !! e) as [[taskId l [i|]]|] eqn:He;
      [|unfold timer; by rewrite He..].
    pose proof (Forall_lookup_1 _ _ _ _ (wf_engines _ Hwf) He) as Hl.
    pose proof (Forall_lookup_1 _ _ _ _ Hok He) as [Hid Hprogress].
    simpl in Hl, Hid, Hprogress.
    destruct (timer_cases config e now st taskId l i He Hl)
      as (F & pc & -> & Hcases).
    assert (∀ t, id (F t) = id t) as HFid.
    { destruct Hcases as [(_ & -> & _)|[(_ & _ & _ & ->)
                                       |(_ & _ & message & _ & ->)]]; done. }
    simpl. apply Forall_lookup. intros e' c' Hc'.
    apply list_lookup_insert_Some in Hc' as [(<- & <- & Hlen)|(Hne & Hc')].
    + unfold coroutine_ok, deref. simpl.
      rewrite list_lookup_total_alter_eq by done. fold (deref st l).
      split; [by rewrite HFid|].
      destruct Hcases as [(_ & -> & [-> | ->])|[(_ & -> & _)|(_ & -> & _)]];
        try done.
      apply progressed_progress.
    + assert (co_task c' ≠ l) as Hother.
      { intros Heq. apply Hne.
        eapply (NoDup_lookup _ _ _ _ (wf_engines_nodup _ Hwf));
          rewrite list_lookup_fmap; [by rewrite He|].
        rewrite Hc'. simpl. by rewrite Heq. }
      pose proof (Forall_lookup_1 _ _ _ _ Hok Hc') as Hcok. revert Hcok.
      apply coroutine_ok_frame; unfold deref; simpl;
        by rewrite list_lookup_total_alter_ne.
  - apply Hframe; [apply engines_handleShutdown|]. intros l.
    rewrite deref_handleShutdown. by case_decide.
Qed.

Lemma wf_records_init config : wf_records config init.
Proof. split; [apply wf_init|by constructor..]. Qed.

Lemma wf_records_step config ev st :
  wf_records config st → wf_records config (step config ev st).1.
Proof.
  intros [Hwf Hrecords Hschema Hkeys Hcoroutines]. split.
  - by apply wf_step.
  - apply Forall_heap_step; try done.
    + intros. apply record_ok_started.
    + intros l t' _. by apply record_ok_obj_step.
  - apply Forall_heap_step; try done.
    + intros. by apply within_schema_started.
    + intros l t' _ [H1 H2] (_ & Htask & Hcontext & _)%obj_step_frame.
      unfold within_schema. by rewrite Htask, Hcontext.
  - apply Forall_forall. intros e He.
    apply tasks_step in He
      as [He|(args_task & args_context & uuid & now & -> & Hs & Hc & ->)].
    + pose proof (proj1 (Forall_forall _ _) (wf_tasks _ Hwf) e He) as Hl.
      pose proof (proj1 (Forall_forall _ _) Hkeys e He) as Hid.
      simpl in Hl, Hid.
      destruct (obj_step_frame _ _ _ _ _ _ (step_obj config ev st e.2 Hwf Hl))
        as (-> & _). done.
    + cbn [fst snd]. by rewrite deref_step_new.
  - by apply coroutines_step.
Qed.

Lemma wf_records_run config evs : wf_records config (run config evs init).
Proof.
  induction evs as [|ev evs IH] using rev_ind; [apply wf_records_init|].
  rewrite run_snoc. by apply wf_records_step.
Qed.

(** ** getStats *)

Lemma count_status_total (l : list TaskState) :
  Z.of_nat (length l)
  = count_status PENDING l + count_status IN_PROGRESS l
    + count_status COMPLETED l + count_status FAILED l
    + count_status CANCELLED l.
Proof.
  unfold count_status. induction l as [|t l IH]; [done|].
  rewrite !filter_cons. cbn [length]. rewrite Nat2Z.inj_succ.
  destruct (status t); repeat case_decide; try done; cbn [length];
    rewrite ?Nat2Z.inj_succ; lia.
Qed.

Lemma count_active (l : list TaskState) :
  Z.of_nat (length (filter is_active l))
  = count_status PENDING l + count_status IN_PROGRESS l.
Proof.
  unfold count_status. induction l as [|t l IH]; [done|].
  rewrite !filter_cons.
  destruct (decide (is_active t)) as [Ha|Ha];
    destruct (decide (status t = PENDING)) as [Hp|Hp];
    destruct (decide (status t = IN_PROGRESS)) as [Hi|Hi];
    unfold is_active in Ha; cbn [length]; rewrite ?Nat2Z.inj_succ;
    try lia; exfalso; try congruence; tauto.
Qed.

Lemma count_terminal (l : list TaskState) :
  Z.of_nat (length (filter is_terminal l))
  = count_status COMPLETED l + count_status FAILED l
    + count_status CANCELLED l.
Proof.
  unfold count_status. induction l as [|t l IH]; [done|].
  rewrite !filter_cons.
  destruct (decide (is_terminal t)) as [Ha|Ha];
    destruct (decide (status t = COMPLETED)) as [Hc|Hc];
    destruct (decide (status t = FAILED)) as [Hf|Hf];
    destruct (decide (status t = CANCELLED)) as [Hx|Hx];
    unfold is_terminal in Ha; cbn [length]; rewrite ?Nat2Z.inj_succ;
    try lia; exfalso; try congruence; tauto.
Qed.

(** X1: the counters of [getStats] partition the map: the five counts by
    status add up to [totalTasks]; the pending and in-progress counts add up
    to the number [delegate] compares with the limit, and the completed,
    failed and cancelled counts to the number of records [cleanupOldTasks]
    bounds; [totalTasks] is the [total] that [list_tasks] reports. *)
Theorem getStats_partition (st : Server) :
  let s := getStats st in
  totalTasks s
  = pendingTasks s + inProgressTasks s + completedTasks s + failedTasks s
    + cancelledTasks s
  ∧ getActiveTaskCount st = pendingTasks s + inProgressTasks s
  ∧ terminal_count st = completedTasks s + failedTasks s + cancelledTasks s
  ∧ totalTasks s = getActiveTaskCount st + terminal_count st
  ∧ ∀ args_status args_limit,
      lr_total (list_tasks args_status args_limit st) = totalTasks s.
Proof.
  simpl. unfold getActiveTaskCount, terminal_count.
  pose proof (count_status_total (Map_values st)).
  pose proof (count_active (Map_values st)).
  pose proof (count_terminal (Map_values st)).
  split_and!; try lia.
  intros. unfold Map_values. by rewrite length_fmap.
Qed.

(** ** The records of a running server *)

Lemma values_in_heap st :
  wf st → Map_values st ⊆ heap st.
Proof.
  intros Hwf t (e & -> & He)%list_elem_of_fmap.
  pose proof (proj1 (Forall_forall _ _) (wf_tasks _ Hwf) e He) as Hl.
  simpl in Hl. unfold deref. by apply list_elem_of_lookup_total_2.
Qed.

Lemma values_record_ok config st :
  wf_records config st → Forall (record_ok config) (Map_values st).
Proof.
  intros Hwf. apply Forall_forall. intros t Ht%values_in_heap;
    [|apply Hwf].
  by apply (proj1 (Forall_forall _ _) (wfr_records _ _ Hwf)).
Qed.

Lemma found_record_ok config st k l :
  wf_records config st → Map_get (tasks st) k = Some l →
  record_ok config (deref st l) ∧ within_schema config (deref st l)
  ∧ id (deref st l) = k.
Proof.
  intros Hwf Hl%Map_get_elem_of.
  pose proof (proj1 (Forall_forall _ _) (wf_tasks _ (wfr_wf _ _ Hwf)) _ Hl)
    as Hlen.
  pose proof (proj1 (Forall_forall _ _) (wfr_keys _ _ Hwf) _ Hl) as Hid.
  simpl in Hlen, Hid. split_and!; [| |done].
  - unfold deref. by apply Forall_lookup_total_1; [apply Hwf|].
  - unfold deref. by apply Forall_lookup_total_1; [apply Hwf|].
Qed.

(** X2: no request ever finds a task in PENDING: [delegate] starts
    [processTask] before it returns, so in every state between two events
    the pending counter of [getStats] is 0, [list_tasks] filtered by
    "pending" is empty, the active count is the in-progress count, and
    [check_status] never reports "pending". *)
Theorem no_task_is_seen_pending (config : LiaisonConfig) (evs : list Event) :
  let st := run config evs init in
  pendingTasks (getStats st) = 0
  ∧ getActiveTaskCount st = inProgressTasks (getStats st)
  ∧ (∀ args_limit, lr_tasks (list_tasks (Some PENDING) args_limit st) = [])
  ∧ (∀ taskId r, check_status taskId st = CheckStatusOk r →
                 sr_status r ≠ PENDING).
Proof.
  intros st.
  pose proof (wf_records_run config evs) as Hwf. fold st in Hwf.
  assert (filter (λ t, status t = PENDING) (Map_values st) = []) as Hnone.
  { apply filter_Forall_not.
    eapply Forall_impl; [apply (values_record_ok _ _ Hwf)|].
    intros t (_ & _ & Hshape) Hs. by rewrite Hs in Hshape. }
  assert (pendingTasks (getStats st) = 0) as Hpending.
  { simpl. unfold count_status. by rewrite Hnone. }
  split_and!.
  - done.
  - destruct (getStats_partition st) as (_ & -> & _). lia.
  - intros args_limit. rewrite list_tasks_selection, Hnone. simpl.
    unfold Array_slice. simpl. by rewrite take_nil.
  - intros taskId r. unfold check_status, validateTaskExists.
    destruct (Map_get (tasks st) taskId) as [l|] eqn:Hl; [|done].
    intros [= <-]. simpl.
    destruct (found_record_ok _ _ _ _ Hwf Hl) as ((_ & _ & Hshape) & _).
    intros Hs. by rewrite Hs in Hshape.
Qed.

Lemma truthy_nonempty c s : truthy (Some (String c s)) = Some (String c s).
Proof. done. Qed.

Lemma truthy_timeout_message config :
  truthy (Some (timeout_message config)) = Some (timeout_message config).
Proof. done. Qed.

Lemma check_status_found st taskId r :
  check_status taskId st = CheckStatusOk r →
  ∃ l, Map_get (tasks st) taskId = Some l
       ∧ sr_taskId r = id (deref st l)
       ∧ sr_status r = status (deref st l)
       ∧ sr_task r = task (deref st l)
       ∧ sr_createdAt r = createdAt (deref st l)
       ∧ sr_updatedAt r = updatedAt (deref st l)
       ∧ sr_progress r = progress (deref st l)
       ∧ sr_context r = truthy (context (deref st l))
       ∧ sr_startedAt r = startedAt (deref st l)
       ∧ sr_completedAt r = completedAt (deref st l)
       ∧ sr_durationMs r
         = ((λ c, c - createdAt (deref st l)) <$> completedAt (deref st l))
       ∧ sr_result r = truthy (result (deref st l))
       ∧ sr_error r = truthy (error (deref st l))
       ∧ sr_message r = status_message (status (deref st l)).
Proof.
  unfold check_status, validateTaskExists.
  destruct (Map_get (tasks st) taskId) as [l|]; [|done].
  intros [= <-]. exists l. by split_and!.
Qed.

(** X3: what [check_status] reports about the outcome of a task goes with
    the status it reports, in every state the server reaches: a result is
    present exactly for a completed task (and is the simulated result), an
    error exactly for a failed task (and is the timeout message),
    [completedAt] and [durationMs] exactly for a completed or failed task,
    whose progress is 100. *)
Theorem check_status_outcome_fields (config : LiaisonConfig)
    (evs : list Event) (taskId : string) (r : StatusReport) :
  check_status taskId (run config evs init) = CheckStatusOk r →
  (sr_status r = COMPLETED ↔ sr_result r = Some simulated_result)
  ∧ (sr_status r ≠ COMPLETED ↔ sr_result r = None)
  ∧ (sr_status r = FAILED ↔ sr_error r = Some (timeout_message config))
  ∧ (sr_status r ≠ FAILED ↔ sr_error r = None)
  ∧ (is_Some (sr_completedAt r)
     ↔ sr_status r = COMPLETED ∨ sr_status r = FAILED)
  ∧ (is_Some (sr_durationMs r) ↔ is_Some (sr_completedAt r))
  ∧ (sr_status r = COMPLETED ∨ sr_status r = FAILED →
     sr_progress r = Some 100)
  ∧ sr_message r = status_message (sr_status r).
Proof.
  intros (l & Hl & _ & Hstatus & _ & _ & _ & Hprogress & _ & _ & Hcompleted
          & Hduration & Hresult & Herror & Hmessage)%check_status_found.
  destruct (found_record_ok _ _ _ _ (wf_records_run config evs) Hl)
    as ((_ & _ & Hshape) & _).
  rewrite Hstatus, Hresult, Herror, Hcompleted, Hduration, Hprogress, Hmessage.
  clear Hstatus Hresult Herror Hcompleted Hduration Hprogress Hmessage.
  pose proof (truthy_timeout_message config) as Htruthy.
  destruct (status (deref (run config evs init) l)).
  - done.
  - destruct Hshape as (-> & -> & ->). simpl.
    split_and!; try done; try (split; [done|intros [? ?]; done]).
    + split; [done|]. intros [Hc|Hc]; discriminate Hc.
    + intros [Hc|Hc]; discriminate Hc.
  - destruct Hshape as ([d ->] & -> & -> & ->). simpl.
    split_and!; try done; try (split; intros; eauto; done).
  - destruct Hshape as ([d ->] & -> & -> & ->). rewrite Htruthy. simpl.
    split_and!; try done; try (split; intros; eauto; done).
  - destruct Hshape as (-> & -> & ->). simpl.
    split_and!; try done; try (split; [done|intros [? ?]; done]).
    + split; [done|]. intros [Hc|Hc]; discriminate Hc.
    + intros [Hc|Hc]; discriminate Hc.
Qed.

Lemma check_status_outcome_fields_witness :
  check_status "task-a" (run DEFAULT_CONFIG late_cancel_run init)
  = CheckStatusOk
      (mkStatusReport "task-a" COMPLETED "ping" 0 5000 (Some 100) None
         (Some 0) (Some 5000) (Some 5000) (Some simulated_result) None
         "Task completed successfully")
  ∧ (COMPLETED = COMPLETED ↔ Some simulated_result = Some simulated_result).
Proof.
  assert (check_status "task-a" (run DEFAULT_CONFIG late_cancel_run init)
          = CheckStatusOk
              (mkStatusReport "task-a" COMPLETED "ping" 0 5000 (Some 100) None
                 (Some 0) (Some 5000) (Some 5000) (Some simulated_result) None
                 "Task completed successfully")) as Hcheck by reflexivity.
  split; [exact Hcheck|].
  exact (proj1 (check_status_outcome_fields DEFAULT_CONFIG late_cancel_run
                  "task-a" _ Hcheck)).
Defined.

(** X4: in every state the server reaches, a report of [check_status]
    carries the identifier it was asked for, a description and a context
    within the bounds of the [delegate] schema, a start time, a status other
    than "pending", and a progress that is one of 0, 20, 40, 60, 80, 100. *)
Theorem check_status_identity_and_bounds (config : LiaisonConfig)
    (evs : list Event) (taskId : string) (r : StatusReport) :
  check_status taskId (run config evs init) = CheckStatusOk r →
  sr_taskId r = taskId
  ∧ 1 ≤ Z.of_nat (String.length (sr_task r)) ≤ maxTaskDescriptionLength config
  ∧ (∀ c, sr_context r = Some c →
          1 ≤ Z.of_nat (String.length c) ≤ maxContextLength config)
  ∧ is_Some (sr_startedAt r)
  ∧ (∃ p, sr_progress r = Some p ∧ 0 ≤ p ≤ 100 ∧ p mod 20 = 0).
Proof.
  intros (l & Hl & Hid & _ & Htask & _ & _ & Hprogress & Hcontext & Hstarted
          & _)%check_status_found.
  destruct (found_record_ok _ _ _ _ (wf_records_run config evs) Hl)
    as ((Hs & (p & Hp & Hpercent) & _) & [Hlen Hctx] & Hkey).
  rewrite Hid, Htask, Hprogress, Hcontext, Hstarted.
  split; [done|]. split; [exact Hlen|]. split; [|split; [done|]].
  - intros c Hc.
    destruct (context (deref (run config evs init) l)) as [[|a c']|] eqn:Heq;
      simpl in Hc; try done.
    injection Hc as <-. specialize (Hctx _ eq_refl).
    split; [simpl; lia|done].
  - exists p. split; [done|].
    unfold percent_ok in Hpercent.
    destruct Hpercent as [->|[->|[->|[->|[->| ->]]]]]; split; (lia || done).
Qed.

Lemma check_status_identity_and_bounds_witness :
  check_status "task-a" (run DEFAULT_CONFIG early_cancel_run init)
  = CheckStatusOk
      (mkStatusReport "task-a" CANCELLED "ping" 0 1000 (Some 20) None
         (Some 0) None None None None "Task was cancelled")
  ∧ 1 ≤ Z.of_nat (String.length "ping")
      ≤ maxTaskDescriptionLength DEFAULT_CONFIG.
Proof.
  assert (check_status "task-a" (run DEFAULT_CONFIG early_cancel_run init)
          = CheckStatusOk
              (mkStatusReport "task-a" CANCELLED "ping" 0 1000 (Some 20) None
                 (Some 0) None None None None "Task was cancelled")) as Hcheck
    by reflexivity.
  split; [exact Hcheck|].
  exact (proj1 (proj2 (check_status_identity_and_bounds DEFAULT_CONFIG
                         early_cancel_run "task-a" _ Hcheck))).
Defined.

(** ** Task objects along a run *)

Lemma run_app config evs evs' st :
  run config (evs ++ evs') st = run config evs' (run config evs st).
Proof. unfold run. apply foldl_app. Qed.

Lemma length_heap_step_le config ev st :
  (length (heap st) ≤ length (heap (step config ev st).1))%nat.
Proof.
  destruct (heap_step config ev st)
    as [->|(args_task & args_context & uuid & now & _ & _ & _ & ->)]; [done|].
  rewrite heap_cleanupOldTasks. unfold admitted. simpl.
  rewrite length_app. lia.
Qed.

Lemma progress_step config ev st l :
  wf_records config st → (l < length (heap st))%nat →
  ∃ p p', progress (deref st l) = Some p
          ∧ progress (deref (step config ev st).1 l) = Some p' ∧ p ≤ p'.
Proof.
  intros Hwf Hl.
  pose proof (Forall_lookup_total_1 _ _ _ (wfr_records _ _ Hwf) Hl) as Hok.
  change (record_ok config (deref st l)) in Hok.
  pose proof (record_ok_obj_step config st l _ _ (wfr_wf _ _ Hwf) Hok
                (step_obj config ev st l (wfr_wf _ _ Hwf) Hl))
    as (_ & (p' & Hp' & Hpercent') & _).
  destruct Hok as (_ & (p & Hp & Hpercent) & _).
  exists p, p'. split; [done|]. split; [done|].
  assert (∀ e taskId i,
            engines st !! e = Some (mkCoroutine taskId l (Awaiting i)) →
            (i < steps)%nat ∧ p = 20 * Z.of_nat i) as Hengine.
  { intros e taskId i He.
    pose proof (Forall_lookup_1 _ _ _ _ (wf_awaiting _ (wfr_wf _ _ Hwf)) He)
      as (Hi & _).
    pose proof (Forall_lookup_1 _ _ _ _ (wfr_coroutines _ _ Hwf) He)
      as (_ & Hprogress).
    simpl in Hi, Hprogress. split; [done|].
    rewrite Hp, round_percent_steps in Hprogress by lia. congruence. }
  pose proof (step_obj config ev st l (wfr_wf _ _ Hwf) Hl) as Hstep.
  inversion Hstep as [Heq|now _ Hactive Heq|e taskId i now _ He Hi Heq
                     |e taskId i now _ He Hi Hcheck Heq
                     |e taskId i now message _ He Hi Hcheck Heq];
    rewrite <- Heq in Hp'.
  - rewrite Hp in Hp'. injection Hp' as <-. lia.
  - simpl in Hp'. rewrite Hp in Hp'. injection Hp' as <-. lia.
  - destruct (Hengine _ _ _ He) as [_ ->].
    rewrite progressed_progress, round_percent_steps in Hp' by lia.
    injection Hp' as <-. lia.
  - simpl in Hp'. injection Hp' as <-.
    unfold percent_ok in Hpercent. lia.
  - destruct (Hengine _ _ _ He) as [Hlt ->].
    change (progress (failed_at now message (progressed i now (deref st l))))
      with (progress (progressed i now (deref st l))) in Hp'.
    rewrite progressed_progress, round_percent_steps in Hp' by lia.
    injection Hp' as <-. lia.
Qed.

(** X5: along every run, a task object keeps its identifier, description,
    context, creation time and start time, and its progress never
    decreases. *)
Theorem task_object_along_run (config : LiaisonConfig) (evs evs' : list Event)
    (l : loc) :
  (l < length (heap (run config evs init)))%nat →
  let t := deref (run config evs init) l in
  let t' := deref (run config (evs ++ evs') init) l in
  id t' = id t ∧ task t' = task t ∧ context t' = context t
  ∧ createdAt t' = createdAt t ∧ startedAt t' = startedAt t
  ∧ ∃ p p', progress t = Some p ∧ progress t' = Some p' ∧ p ≤ p'.
Proof.
  intros Hl. cbv zeta.
  induction evs' as [|ev evs' IH] using rev_ind.
  - rewrite app_nil_r. split_and!; try done.
    pose proof (Forall_lookup_total_1 _ _ _
                  (wfr_records _ _ (wf_records_run config evs)) Hl)
      as (_ & (p & Hp & _) & _).
    exists p, p. by split_and!.
  - rewrite app_assoc, run_snoc.
    set (st' := run config (evs ++ evs') init) in *.
    assert (l < length (heap st'))%nat as Hl'.
    { subst st'. rewrite run_app. clear IH.
      induction evs' as [|ev' evs' IH'] using rev_ind; [done|].
      rewrite run_snoc.
      eapply Nat.lt_le_trans; [exact IH'|apply length_heap_step_le]. }
    pose proof (wf_records_run config (evs ++ evs')) as Hwf. fold st' in Hwf.
    destruct (obj_step_frame _ _ _ _ _ _
                (step_obj config ev st' l (wfr_wf _ _ Hwf) Hl'))
      as (-> & -> & -> & -> & ->).
    destruct IH as (? & ? & ? & ? & ? & p & p' & Hp & Hp' & Hle).
    split_and!; try done.
    destruct (progress_step config ev st' l Hwf Hl')
      as (q & q' & Hq & Hq' & Hle').
    exists p, q'. split_and!; try done.
    rewrite Hp' in Hq. injection Hq as <-. lia.
Qed.

Lemma task_object_along_run_witness :
  (0 < length (heap (run DEFAULT_CONFIG ping_run init)))%nat
  ∧ task (deref (run DEFAULT_CONFIG late_cancel_run init) 0%nat)
    = task (deref (run DEFAULT_CONFIG ping_run init) 0%nat).
Proof.
  assert (0 < length (heap (run DEFAULT_CONFIG ping_run init)))%nat as Hl
    by (vm_compute; lia).
  split; [exact Hl|].
  exact (proj1 (proj2
           (task_object_along_run DEFAULT_CONFIG ping_run
              [Timer 0 1000; Timer 0 2000; Timer 0 3000; Timer 0 4000;
               CallCancelTask "task-a" 4500; Timer 0 5000] 0%nat Hl))).
Defined.

(** X6: COMPLETED and FAILED are final: once a task object is in one of
    them, no later event (another delegation, a cancellation, a timer, a
    shutdown signal, [clearTasks]) changes any of its properties. *)
Theorem completed_and_failed_are_final (config : LiaisonConfig)
    (evs evs' : list Event) (l : loc) :
  settled (deref (run config evs init) l) →
  deref (run config (evs ++ evs') init) l = deref (run config evs init) l.
Proof.
  intros Hsettled. rewrite run_app.
  apply settled_frozen_run; [apply wf_run, wf_init|done].
Qed.

Lemma completed_and_failed_are_final_witness :
  settled (deref (run DEFAULT_CONFIG late_cancel_run init) 0%nat)
  ∧ deref (run DEFAULT_CONFIG
             (late_cancel_run ++ [CallCancelTask "task-a" 6000; Signal 7000])
             init) 0%nat
    = deref (run DEFAULT_CONFIG late_cancel_run init) 0%nat.
Proof.
  assert (settled (deref (run DEFAULT_CONFIG late_cancel_run init) 0%nat))
    as Hsettled by (left; reflexivity).
  split; [exact Hsettled|].
  exact (completed_and_failed_are_final DEFAULT_CONFIG late_cancel_run
           [CallCancelTask "task-a" 6000; Signal 7000] 0%nat Hsettled).
Defined.

(** ** Cancellation and shutdown *)

(** X7: a cancellation that lands while an await other than the last is
    pending is final: when the coroutine of a CANCELLED task that is still
    the one in the map is resumed from the await of iteration [i], with
    [i + 1 < 5], it returns, and under every later event the task stays
    CANCELLED, without [completedAt] or result, at the progress
    [20 * (i + 1)] of the step that was in flight. *)
Theorem cancellation_before_last_step_is_final (config : LiaisonConfig)
    (evs : list Event) (e : nat) (taskId : string) (l : loc) (i : nat)
    (now : Z) :
  let st := run config evs init in
  engines st !! e = Some (mkCoroutine taskId l (Awaiting i)) →
  (S i < steps)%nat →
  Map_get (tasks st) taskId = Some l →
  status (deref st l) = CANCELLED →
  ∀ evs', let t := deref (run config (evs ++ Timer e now :: evs') init) l in
          status t = CANCELLED
          ∧ progress t = Some (20 * (Z.of_nat i + 1))
          ∧ completedAt t = None ∧ result t = None ∧ error t = None.
Proof.
  intros st He Hi Hmap Hcancelled evs' t.
  pose proof (wf_records_run config (evs ++ Timer e now :: evs')) as Hwf.
  destruct (cancellation_seen_at_loop_head config e taskId l i now st
              (wf_run config evs init wf_init) He Hi (or_introl Hmap)
              Hcancelled) as [_ Hfinal].
  specialize (Hfinal evs'). cbv zeta in Hfinal.
  change (run config evs' (step config (Timer e now) st).1)
    with (run config (Timer e now :: evs') st) in Hfinal.
  unfold st in Hfinal. rewrite <- run_app in Hfinal. fold t in Hfinal.
  destruct Hfinal as [Hstatus Hprogress].
  assert (l < length (heap (run config (evs ++ Timer e now :: evs') init)))%nat
    as Hl.
  { apply terminal_allocated. fold t. unfold is_terminal. auto. }
  pose proof (Forall_lookup_total_1 _ _ _ (wfr_records _ _ Hwf) Hl)
    as (_ & _ & Hshape).
  change (heap (run config (evs ++ Timer e now :: evs') init) !!! l)
    with t in Hshape.
  rewrite Hstatus in Hshape. split_and!; try tauto.
  rewrite Hprogress. f_equal.
  replace (Z.of_nat i + 1) with (Z.of_nat (S i)) by lia.
  rewrite round_percent_steps by lia. lia.
Qed.

Lemma cancellation_before_last_step_is_final_witness :
  engines (run DEFAULT_CONFIG (take 2 early_cancel_run) init) !! 0%nat
  = Some (mkCoroutine "task-a" 0%nat (Awaiting 0))
  ∧ status
      (deref (run DEFAULT_CONFIG
                (take 2 early_cancel_run ++ Timer 0 1000 :: [Timer 0 2000])
                init) 0%nat)
    = CANCELLED.
Proof.
  assert (engines (run DEFAULT_CONFIG (take 2 early_cancel_run) init) !! 0%nat
          = Some (mkCoroutine "task-a" 0%nat (Awaiting 0))) as He
    by reflexivity.
  split; [exact He|].
  assert (S 0 < steps)%nat as Hi by (unfold steps; lia).
  assert (Map_get (tasks (run DEFAULT_CONFIG (take 2 early_cancel_run) init))
            "task-a" = Some 0%nat) as Hmap by reflexivity.
  assert (status (deref (run DEFAULT_CONFIG (take 2 early_cancel_run) init)
                    0%nat) = CANCELLED) as Hcancelled by reflexivity.
  exact (proj1 (cancellation_before_last_step_is_final DEFAULT_CONFIG
                  (take 2 early_cancel_run) 0%nat "task-a" 0%nat 0%nat 1000
                  He Hi Hmap Hcancelled [Timer 0 2000])).
Defined.

(** X8: a second cancellation of a task is refused: after [cancel_task] has
    cancelled a task, a further [cancel_task] on the same identifier changes
    nothing and reports the status "cancelled", and [check_status] reports
    the task as cancelled at the time of the first cancellation, without
    [completedAt]. *)
Theorem cancel_task_twice (config : LiaisonConfig) (evs : list Event)
    (taskId : string) (now now' : Z) (st1 : Server) (r : CancelDone) :
  cancel_task taskId now (run config evs init) = (st1, CancelOk r) →
  cancel_task taskId now' st1
  = (st1, CancelNotAllowed
            (mkCancelRefused "Cannot cancel task" taskId CANCELLED
               "Task is already cancelled and cannot be cancelled"))
  ∧ ∃ report, check_status taskId st1 = CheckStatusOk report
              ∧ sr_status report = CANCELLED
              ∧ sr_updatedAt report = now
              ∧ sr_completedAt report = None
              ∧ sr_message report = "Task was cancelled".
Proof.
  set (st := run config evs init). intros Hcancel.
  pose proof (wf_records_run config evs) as Hwf. fold st in Hwf.
  destruct (Map_get (tasks st) taskId) as [l|] eqn:Hl;
    [|unfold cancel_task, validateTaskExists in Hcancel;
      by rewrite Hl in Hcancel].
  rewrite (cancel_task_found _ _ _ _ Hl) in Hcancel.
  case_decide as Hterminal; [done|]. cbv zeta in Hcancel.
  injection Hcancel as <- _.
  destruct (found_record_ok _ _ _ _ Hwf Hl) as ((_ & _ & Hshape) & _).
  assert (l < length (heap st))%nat as Hlen.
  { pose proof (wf_tasks _ (wfr_wf _ _ Hwf)) as H.
    eapply Forall_forall in H; [|by apply Map_get_elem_of]. done. }
  assert (Map_get (tasks (write l (cancelled_at now) st)) taskId = Some l)
    as Hl' by done.
  assert (deref (write l (cancelled_at now) st) l
          = cancelled_at now (deref st l)) as Hderef
    by by rewrite deref_write_eq.
  split.
  - rewrite (cancel_task_found _ _ _ _ Hl'), Hderef.
    rewrite decide_True; [done|]. right. right. done.
  - unfold check_status, validateTaskExists. rewrite Hl', Hderef.
    eexists. split; [reflexivity|]. simpl. split_and!; try done.
    unfold is_terminal in Hterminal.
    destruct (status (deref st l)); naive_solver.
Qed.

Lemma cancel_task_twice_witness :
  cancel_task "task-a" 1 (run DEFAULT_CONFIG ping_run init)
  = (run DEFAULT_CONFIG (take 2 early_cancel_run) init,
     CancelOk (mkCancelDone "task-a" CANCELLED "Task has been cancelled" 1))
  ∧ cancel_task "task-a" 2 (run DEFAULT_CONFIG (take 2 early_cancel_run) init)
    = (run DEFAULT_CONFIG (take 2 early_cancel_run) init,
       CancelNotAllowed
         (mkCancelRefused "Cannot cancel task" "task-a" CANCELLED
            "Task is already cancelled and cannot be cancelled")).
Proof.
  assert (cancel_task "task-a" 1 (run DEFAULT_CONFIG ping_run init)
          = (run DEFAULT_CONFIG (take 2 early_cancel_run) init,
             CancelOk
               (mkCancelDone "task-a" CANCELLED "Task has been cancelled" 1)))
    as Hcancel by reflexivity.
  split; [exact Hcancel|].
  exact (proj1 (cancel_task_twice DEFAULT_CONFIG ping_run "task-a" 1 2 _ _
                  Hcancel)).
Defined.

(** X9: [handleShutdown] cancels what is running and nothing else: in every
    state the server reaches, after it no task of the map is PENDING or
    IN_PROGRESS, the map has the same entries, every task that was active is
    CANCELLED with [updatedAt] set to the clock and its other properties as
    before, and every other task is as before. *)
Theorem handleShutdown_cancels_active (config : LiaisonConfig)
    (evs : list Event) (now : Z) :
  let st := run config evs init in
  let st' := handleShutdown now st in
  getActiveTaskCount st' = 0
  ∧ terminal_count st' = totalTasks (getStats st)
  ∧ tasks st' = tasks st
  ∧ ∀ taskId l, Map_get (tasks st) taskId = Some l →
      deref st' l
      = if decide (is_active (deref st l)) then
          let t := deref st l in
          mkTaskState (id t) (task t) (context t) CANCELLED (createdAt t) now
            (startedAt t) (completedAt t) (result t) (error t) (progress t)
        else deref st l.
Proof.
  intros st st'.
  pose proof (wf_run config evs init wf_init) as Hwf. fold st in Hwf.
  assert (∀ e, e ∈ tasks st →
               deref st' e.2
               = if decide (is_active (deref st e.2))
                 then cancelled_at now (deref st e.2) else deref st e.2)
    as Hderef.
  { intros e He. unfold st'. rewrite deref_handleShutdown.
    pose proof (proj1 (Forall_forall _ _) (wf_tasks _ Hwf) e He) as Hl.
    simpl in Hl. apply decide_ext. split; [tauto|]. intros Ha.
    split_and!; [done| |done]. apply list_elem_of_fmap. by exists e. }
  assert (filter is_active (Map_values st') = []) as Hnone.
  { apply filter_Forall_not. unfold Map_values. apply Forall_fmap.
    unfold st' at 2. rewrite tasks_handleShutdown.
    apply Forall_forall. intros e He. simpl. rewrite (Hderef e He).
    case_decide as Ha; [|done].
    unfold is_active. simpl. naive_solver. }
  assert (getActiveTaskCount st' = 0) as Hactive.
  { unfold getActiveTaskCount. by rewrite Hnone. }
  split_and!.
  - done.
  - destruct (getStats_partition st') as (_ & _ & _ & Htotal & _).
    rewrite Hactive in Htotal. simpl in Htotal |- *.
    unfold Map_values in Htotal |- *. rewrite !length_fmap in Htotal |- *.
    unfold st' in Htotal at 1. rewrite tasks_handleShutdown in Htotal. lia.
  - apply tasks_handleShutdown.
  - intros taskId l Hl%Map_get_elem_of. exact (Hderef (taskId, l) Hl).
Qed.

(** ** delegate, seen through the other tools *)

Lemma Map_get_filter_keys (m : TaskMap) (R : list string) k :
  Map_get (filter (λ e, e.1 ∉ R) m) k
  = if decide (k ∈ R) then None else Map_get m k.
Proof.
  induction m as [|[k' v] m IH].
  - by case_decide.
  - rewrite filter_cons. cbn [fst].
    destruct (decide (k' ∉ R)) as [Hk'|Hk']; cbn [Map_get];
      destruct (String.eqb_spec k' k) as [->|Hne]; try done.
    + by rewrite decide_False.
    + apply dec_stable in Hk'. rewrite IH. by destruct (decide (k ∈ R)).
Qed.

Lemma Map_get_app (m1 m2 : TaskMap) k :
  Map_get (m1 ++ m2) k
  = match Map_get m1 k with Some l => Some l | None => Map_get m2 k end.
Proof.
  induction m1 as [|[k' v] m1 IH]; [done|]. cbn [app Map_get].
  by destruct (String.eqb k' k).
Qed.

Lemma Map_set_fresh (m : TaskMap) k v :
  Map_get m k = None → Map_set m k v = (m ++ [(k, v)])%list.
Proof.
  induction m as [|[k' v'] m IH]; [done|]. cbn [Map_get Map_set app].
  destruct (String.eqb k' k); [done|]. intros Hm. by rewrite IH.
Qed.



Lemma cleanupOldTasks_noop st :
  terminal_count st ≤ 100 → cleanupOldTasks st = st.
Proof.
  intros Hcount. unfold cleanupOldTasks. cbv zeta.
  rewrite <- terminal_count_completedTasks.
  by destruct (Z.ltb_spec 100 (terminal_count st)); [lia|].
Qed.



(** X11: an admitted delegation adds one record and touches no other: when
    the identifier is new and at most 100 records are in a terminal state,
    [delegate] appends one entry to the map and one object to the store,
    leaves every other report of [check_status] as it was, and raises the
    active count and the total by one. *)
Theorem delegate_adds_one_record (config : LiaisonConfig) (evs : list Event)
    (args_task : string) (args_context : option string) (uuid : string)
    (now : Z) :
  let st := run config evs init in
  let st' := (delegate config args_task args_context uuid now st).1 in
  let taskId := generateTaskId uuid in
  getActiveTaskCount st < maxConcurrentTasks config →
  Map_get (tasks st) taskId = None →
  terminal_count st ≤ 100 →
  tasks st' = (tasks st ++ [(taskId, length (heap st))])%list
  ∧ heap st'
    = (heap st ++ [started_task taskId args_task args_context now])%list
  ∧ Map_values st'
    = (Map_values st ++ [started_task taskId args_task args_context now])%list
  ∧ (∀ k, k ≠ taskId → check_status k st' = check_status k st)
  ∧ getActiveTaskCount st' = getActiveTaskCount st + 1
  ∧ terminal_count st' = terminal_count st
  ∧ totalTasks (getStats st') = totalTasks (getStats st) + 1.
Proof.
  intros st st' taskId Hcount Hfresh Hterminal.
  pose proof (wf_run config evs init wf_init) as Hwf. fold st in Hwf.
  set (mid := admitted args_task args_context uuid now st).
  assert (tasks mid = (tasks st ++ [(taskId, length (heap st))])%list)
    as Htasks by (by apply Map_set_fresh).
  assert (Map_values mid
          = (Map_values st
             ++ [started_task taskId args_task args_context now])%list)
    as Hvalues.
  { unfold Map_values. rewrite Htasks, fmap_app. f_equal.
    - apply Forall_fmap_ext. eapply Forall_impl; [apply (wf_tasks _ Hwf)|].
      intros e He. by apply deref_admitted_old.
    - simpl. unfold mid. by rewrite deref_admitted_new. }
  assert (terminal_count mid = terminal_count st) as Hsame.
  { unfold terminal_count. rewrite Hvalues, filter_app.
    rewrite (filter_Forall_not is_terminal [_]), app_nil_r; [done|].
    apply Forall_singleton. unfold is_terminal. simpl. naive_solver. }
  assert (st' = mid) as ->.
  { unfold st'. rewrite delegate_accepted by done. simpl.
    apply cleanupOldTasks_noop. fold mid. lia. }
  split_and!; try done.
  - intros k Hk. unfold check_status, validateTaskExists.
    rewrite Htasks, Map_get_app. cbn [Map_get].
    destruct (String.eqb_spec taskId k) as [->|_]; [done|].
    destruct (Map_get (tasks st) k) as [l|] eqn:Hl; [|done].
    pose proof (proj1 (Forall_forall _ _) (wf_tasks _ Hwf) _
                  (Map_get_elem_of _ _ _ Hl)) as Hlen.
    simpl in Hlen. unfold mid. by rewrite deref_admitted_old.
  - unfold getActiveTaskCount. rewrite Hvalues, filter_app, length_app.
    rewrite (filter_Forall_id is_active [_]); [simpl; lia|].
    apply Forall_singleton. unfold is_active. simpl. naive_solver.
  - simpl. rewrite Hvalues, length_app. simpl. lia.
Qed.

Lemma delegate_adds_one_record_witness :
  getActiveTaskCount (run DEFAULT_CONFIG ping_run init)
  < maxConcurrentTasks DEFAULT_CONFIG
  ∧ tasks (delegate DEFAULT_CONFIG "pong" None "b" 5
             (run DEFAULT_CONFIG ping_run init)).1
    = (tasks (run DEFAULT_CONFIG ping_run init)
       ++ [(generateTaskId "b", length (heap (run DEFAULT_CONFIG ping_run init)))])%list.
Proof.
  assert (getActiveTaskCount (run DEFAULT_CONFIG ping_run init)
          < maxConcurrentTasks DEFAULT_CONFIG) as Hcount
    by (vm_compute; reflexivity).
  assert (Map_get (tasks (run DEFAULT_CONFIG ping_run init))
            (generateTaskId "b") = None) as Hfresh by reflexivity.
  assert (terminal_count (run DEFAULT_CONFIG ping_run init) ≤ 100) as Hterminal
    by (vm_compute; discriminate).
  split; [exact Hcount|].
  exact (proj1 (delegate_adds_one_record DEFAULT_CONFIG ping_run "pong" None
                  "b" 5 Hcount Hfresh Hterminal)).
Defined.

(** X12: [cleanupOldTasks] does nothing while at most 100 records are in a
    terminal state, and running it twice is the same as running it once. *)
Theorem cleanupOldTasks_idempotent (st : Server) :
  NoDup (tasks st).*1 →
  (terminal_count st ≤ 100 → cleanupOldTasks st = st)
  ∧ cleanupOldTasks (cleanupOldTasks st) = cleanupOldTasks st.
Proof.
  intros Hkeys. split; [apply cleanupOldTasks_noop|].
  apply cleanupOldTasks_noop.
  rewrite terminal_count_cleanupOldTasks by done. lia.
Qed.

Lemma cleanupOldTasks_idempotent_witness :
  NoDup (tasks (run DEFAULT_CONFIG (cancelled_delegations 101) init)).*1
  ∧ cleanupOldTasks
      (cleanupOldTasks (run DEFAULT_CONFIG (cancelled_delegations 101) init))
    = cleanupOldTasks (run DEFAULT_CONFIG (cancelled_delegations 101) init).
Proof.
  assert (NoDup (tasks (run DEFAULT_CONFIG (cancelled_delegations 101) init)).*1)
    as Hkeys by (apply (bool_decide_unpack _); vm_compute; exact I).
  split; [exact Hkeys|].
  exact (proj2 (cleanupOldTasks_idempotent _ Hkeys)).
Defined.

(** ** list_tasks, further *)

Lemma Map_get_of_elem (m : TaskMap) k l :
  NoDup m.*1 → (k, l) ∈ m → Map_get m k = Some l.
Proof.
  intros Hkeys Hin.
  destruct (Map_get m k) as [l'|] eqn:Hget.
  - apply Map_get_elem_of in Hget.
    by pose proof (NoDup_fst_agree m _ _ Hkeys Hin Hget eq_refl) as [= ->].
  - apply Map_get_None in Hget. exfalso. apply Hget.
    apply list_elem_of_fmap. by exists (k, l).
Qed.

Lemma Array_slice_sublist {A} (a b : Z) (l : list A) :
  Array_slice a b l `sublist_of` l.
Proof.
  unfold Array_slice. etrans; [apply sublist_take|apply sublist_drop].
Qed.

Lemma ids_Map_values config st :
  wf_records config st → id <$> Map_values st = (tasks st).*1.
Proof.
  intros Hwf. unfold Map_values. rewrite <- list_fmap_compose.
  apply Forall_fmap_ext. eapply Forall_impl; [apply (wfr_keys _ _ Hwf)|].
  by intros e He.
Qed.

(** X13: a listing never shows a task twice, and it agrees with
    [check_status]: in every state the server reaches, the identifiers of
    the entries [list_tasks] returns are pairwise distinct, and for each entry
    [check_status] on its identifier reports the same status, creation time,
    update time and progress. *)
Theorem listing_agrees_with_check_status (config : LiaisonConfig)
    (evs : list Event) (args_status : option TaskStatus) (args_limit : Z) :
  let st := run config evs init in
  let listed := lr_tasks (list_tasks args_status args_limit st) in
  NoDup (ts_taskId <$> listed)
  ∧ Forall (λ e, ∃ r, check_status (ts_taskId e) st = CheckStatusOk r
                      ∧ sr_taskId r = ts_taskId e
                      ∧ sr_status r = ts_status e
                      ∧ sr_createdAt r = ts_createdAt e
                      ∧ sr_updatedAt r = ts_updatedAt e
                      ∧ sr_progress r = ts_progress e) listed.
Proof.
  intros st listed.
  pose proof (wf_records_run config evs) as Hwf. fold st in Hwf.
  pose proof (wf_keys _ (wfr_wf _ _ Hwf)) as Hkeys.
  unfold listed. rewrite list_tasks_selection.
  set (matching := match args_status with
                   | Some s => filter (λ t, status t = s) (Map_values st)
                   | None => Map_values st
                   end).
  assert (matching `sublist_of` Map_values st) as Hmatching.
  { unfold matching. destruct args_status; [apply sublist_filter|done]. }
  split.
  - rewrite <- list_fmap_compose.
    change (ts_taskId ∘ summarize) with id.
    eapply sublist_NoDup; [|apply fmap_sublist, Array_slice_sublist].
    rewrite (Array_sort_perm updatedAt).
    eapply sublist_NoDup; [|apply fmap_sublist, Hmatching].
    by rewrite (ids_Map_values config).
  - apply Forall_fmap, Forall_forall. intros t Ht.
    apply Array_slice_subseteq, Array_sort_elem_of in Ht.
    apply (sublist_subseteq _ _ Hmatching) in Ht.
    apply list_elem_of_fmap in Ht as ([k l] & -> & He).
    pose proof (proj1 (Forall_forall _ _) (wfr_keys _ _ Hwf) _ He) as Hid.
    simpl in Hid |- *.
    unfold check_status, validateTaskExists.
    rewrite Hid, (Map_get_of_elem _ _ _ Hkeys He).
    eexists. split; [reflexivity|]. by simpl.
Qed.

(** X14: [list_tasks] shows the most recently updated tasks: for a limit
    that is not negative, the tasks shown are [min limit m] of the [m] tasks
    that match the filter (all of them when [m <= limit]), none of the tasks
    left out was updated later than one that is shown, and [filtered] is the
    number shown. *)
Theorem list_tasks_shows_most_recent (st : Server)
    (args_status : option TaskStatus) (args_limit : Z) :
  0 ≤ args_limit →
  let matching := match args_status with
                  | Some s => filter (λ t, status t = s) (Map_values st)
                  | None => Map_values st
                  end in
  let r := list_tasks args_status args_limit st in
  ∃ shown rest,
    lr_tasks r = summarize <$> shown
    ∧ (shown ++ rest)%list ≡ₚ matching
    ∧ length shown = (Z.to_nat args_limit `min` length matching)%nat
    ∧ (∀ a b, a ∈ shown → b ∈ rest → updatedAt b ≤ updatedAt a)
    ∧ ((length matching ≤ Z.to_nat args_limit)%nat → rest = [])
    ∧ lr_filtered r = Z.of_nat (length shown).
Proof.
  intros Hlimit matching r.
  set (sorted := Array_sort (descending updatedAt) matching).
  exists (take (Z.to_nat args_limit) sorted),
         (drop (Z.to_nat args_limit) sorted).
  assert (lr_tasks r = summarize <$> take (Z.to_nat args_limit) sorted) as Hr.
  { unfold r. by rewrite list_tasks_selection, Array_slice_0. }
  split_and!.
  - done.
  - rewrite take_drop. apply (Array_sort_perm updatedAt).
  - rewrite length_take. unfold sorted.
    by rewrite (Array_sort_length updatedAt).
  - intros a b Ha Hb.
    pose proof (Array_sort_sorted updatedAt matching) as Hsorted.
    fold sorted in Hsorted.
    rewrite <- (take_drop (Z.to_nat args_limit) sorted) in Hsorted.
    apply (StronglySorted_app_1_elem_of _ _ _ _ _ Hsorted Ha Hb).
  - intros Hfew. apply drop_ge. unfold sorted.
    by rewrite (Array_sort_length updatedAt).
  - change (lr_filtered r) with (Z.of_nat (length (lr_tasks r))).
    by rewrite Hr, length_fmap.
Qed.

Lemma list_tasks_shows_most_recent_witness :
  0 ≤ 3
  ∧ ∃ shown rest : list TaskState,
      lr_tasks (list_tasks (Some CANCELLED) 3
                  (run DEFAULT_CONFIG (cancelled_delegations 5) init))
      = summarize <$> shown
      ∧ length shown = 3%nat
      ∧ ∀ a b, a ∈ shown → b ∈ rest → updatedAt b ≤ updatedAt a.
Proof.
  assert (0 ≤ 3) as Hlimit by lia.
  split; [exact Hlimit|].
  destruct (list_tasks_shows_most_recent
              (run DEFAULT_CONFIG (cancelled_delegations 5) init)
              (Some CANCELLED) 3 Hlimit)
    as (shown & rest & Hr & _ & Hlen & Hrecent & _).
  exists shown, rest. split; [exact Hr|].
  vm_compute in Hlen. split; [exact Hlen|exact Hrecent].
Defined.

(** ** Timestamps *)

Lemma timestamps_ok_mono c c' t :
  c ≤ c' → timestamps_ok c t → timestamps_ok c' t.
Proof. intros Hc (H1 & H2 & H3 & H4). split_and!; try done. lia. Qed.

Lemma timestamps_ok_obj_step config st l clock c t t' :
  (∀ now, clock = Some now → now = c) →
  timestamps_ok c t → obj_step config st l clock t t' → timestamps_ok c t'.
Proof.
  intros Hclock Hok Hstep.
  pose proof Hok as (H1 & H2 & H3 & H4).
  assert (∀ u, timestamps_ok c (set_updatedAt c (set_progress u t))) as Hwrite.
  { intros u. split_and!; simpl; try lia.
    - intros s Hs. destruct (H3 s Hs). lia.
    - intros d Hd. destruct (H4 d Hd) as [? Hstart]. split; [lia|done]. }
  assert (∀ u, timestamps_ok c u → updatedAt u = c →
               ∀ status' result' error' progress',
                 timestamps_ok c
                   (mkTaskState (id u) (task u) (context u) status'
                      (createdAt u) c (startedAt u) (Some c) result' error'
                      progress')) as Hfinish.
  { intros u (G1 & G2 & G3 & G4) Hu ? ? ? ?. split_and!; simpl; try lia.
    - intros s Hs. destruct (G3 s Hs). lia.
    - intros d [= <-]. split; [lia|]. intros s Hs. destruct (G3 s Hs). lia. }
  inversion Hstep as [|now Hnow Hactive|e taskId i now Hnow He Hi
                     |e taskId i now Hnow He Hi Hcheck
                     |e taskId i now message Hnow He Hi Hcheck]; subst;
    try (rewrite (Hclock _ eq_refl) in *).
  - done.
  - split_and!; simpl; try lia.
    + intros s Hs. destruct (H3 s Hs). lia.
    + intros d Hd. destruct (H4 d Hd) as [? Hstart]. split; [lia|done].
  - apply Hwrite.
  - apply (Hfinish (progressed i c t)); [apply Hwrite|done].
  - apply (Hfinish (progressed i c t)); [apply Hwrite|done].
Qed.

Lemma timestamps_step config ev st c :
  wf st →
  (∀ now, event_time ev = Some now → now = c) →
  Forall (timestamps_ok c) (heap st) →
  Forall (timestamps_ok c) (heap (step config ev st).1).
Proof.
  intros Hwf Hclock. apply Forall_heap_step; [done| |].
  - intros args_task args_context uuid now -> _.
    rewrite <- (Hclock now eq_refl).
    split_and!; simpl; try lia.
    + intros s [= <-]. lia.
    + intros d [=].
  - intros l t' _. by apply timestamps_ok_obj_step.
Qed.

Lemma timestamps_run config evs c :
  clock_monotone evs →
  Forall (λ now, now ≤ c) (omap event_time evs) →
  Forall (timestamps_ok c) (heap (run config evs init)).
Proof.
  revert c. induction evs as [|ev evs IH] using rev_ind; intros c;
    [by constructor|].
  unfold clock_monotone. rewrite omap_app.
  intros Hsorted [Hbound Hlast]%Forall_app.
  rewrite run_snoc.
  pose proof (wf_run config evs init wf_init) as Hwf.
  destruct (event_time ev) as [now|] eqn:Hev; simpl in Hsorted, Hlast.
  - rewrite Hev in Hsorted, Hlast. simpl in Hsorted, Hlast.
    apply StronglySorted_app in Hsorted as (Hbefore & Hevs & _).
    rewrite Forall_singleton in Hlast.
    eapply Forall_impl; [|intros t; by apply (timestamps_ok_mono now c)].
    apply timestamps_step; [done|by rewrite Hev; intros ? [= <-]|].
    apply IH; [done|].
    apply Forall_forall. intros t Ht. apply (Hbefore t now Ht). left.
  - rewrite Hev in Hsorted. simpl in Hsorted. rewrite app_nil_r in Hsorted.
    apply timestamps_step; [done|by rewrite Hev|].
    by apply IH.
Qed.

Lemma Forall_le_max (ts : list Z) :
  Forall (λ now, now ≤ foldr Z.max 0 ts) ts.
Proof.
  induction ts as [|t ts IH]; [constructor|]. simpl. constructor; [lia|].
  eapply Forall_impl; [exact IH|]. intros; simpl in *; lia.
Qed.

(** X15: when the clock does not run backwards, the timestamps
    [check_status] reports are in order: [createdAt <= startedAt <=
    updatedAt], [startedAt <= completedAt <= updatedAt] when the task has
    completed or failed, and [durationMs] is not negative. *)
Theorem check_status_timestamps_in_order (config : LiaisonConfig)
    (evs : list Event) (taskId : string) (r : StatusReport) :
  clock_monotone evs →
  check_status taskId (run config evs init) = CheckStatusOk r →
  sr_createdAt r ≤ sr_updatedAt r
  ∧ (∀ s, sr_startedAt r = Some s → sr_createdAt r ≤ s ≤ sr_updatedAt r)
  ∧ (∀ d, sr_completedAt r = Some d →
          sr_createdAt r ≤ d ≤ sr_updatedAt r
          ∧ ∀ s, sr_startedAt r = Some s → s ≤ d)
  ∧ (∀ ms, sr_durationMs r = Some ms → 0 ≤ ms).
Proof.
  intros Hclock
    (l & Hl & _ & _ & _ & Hcreated & Hupdated & _ & _ & Hstarted & Hcompleted
     & Hduration & _)%check_status_found.
  pose proof (wf_records_run config evs) as Hwf.
  destruct (found_record_ok _ _ _ _ Hwf Hl) as ((Hsome & _) & _).
  pose proof (timestamps_run config evs _ Hclock
                (Forall_le_max (omap event_time evs))) as Htimes.
  pose proof (proj1 (Forall_forall _ _) (wf_tasks _ (wfr_wf _ _ Hwf)) _
                (Map_get_elem_of _ _ _ Hl)) as Hlen.
  simpl in Hlen.
  pose proof (Forall_lookup_total_1 _ _ _ Htimes Hlen) as (H1 & _ & H3 & H4).
  change (heap (run config evs init) !!! l)
    with (deref (run config evs init) l) in *.
  rewrite Hcreated, Hupdated, Hstarted, Hcompleted, Hduration.
  destruct Hsome as [s Hs].
  split; [done|]. split; [exact H3|]. split.
  - intros d Hd. destruct (H4 d Hd) as [Hdu Hsd].
    destruct (H3 s Hs). pose proof (Hsd s Hs). split; [lia|done].
  - intros ms Hms.
    destruct (completedAt (deref (run config evs init) l)) as [d|] eqn:Hd;
      [|done].
    injection Hms as <-. destruct (H4 d eq_refl) as [_ Hsd].
    destruct (H3 s Hs). specialize (Hsd s Hs). lia.
Qed.

Lemma check_status_timestamps_in_order_witness :
  clock_monotone late_cancel_run
  ∧ check_status "task-a" (run DEFAULT_CONFIG late_cancel_run init)
    = CheckStatusOk
        (mkStatusReport "task-a" COMPLETED "ping" 0 5000 (Some 100) None
           (Some 0) (Some 5000) (Some 5000) (Some simulated_result) None
           "Task completed successfully")
  ∧ 0 ≤ 5000.
Proof.
  assert (clock_monotone late_cancel_run) as Hclock.
  { unfold clock_monotone. simpl. repeat constructor; lia. }
  assert (check_status "task-a" (run DEFAULT_CONFIG late_cancel_run init)
          = CheckStatusOk
              (mkStatusReport "task-a" COMPLETED "ping" 0 5000 (Some 100) None
                 (Some 0) (Some 5000) (Some 5000) (Some simulated_result) None
                 "Task completed successfully")) as Hcheck by reflexivity.
  split; [exact Hclock|]. split; [exact Hcheck|].
  exact (proj1 (check_status_timestamps_in_order DEFAULT_CONFIG late_cancel_run
                  "task-a" _ Hclock Hcheck)).
Defined.

(** ** A task that is left to run *)







(** ** Ties in a listing *)

Lemma sort_insert_filter_key {A} (key : A → Z) (u : Z) x (l : list A) :
  filter (λ a, key a = u) (sort_insert (descending key) x l)
  = filter (λ a, key a = u) (x :: l).
Proof.
  induction l as [|y l IH]; [done|]. cbn [sort_insert].
  unfold descending at 1.
  destruct (Z.leb_spec (key y - key x) 0) as [Hle|Hgt]; [done|].
  rewrite filter_cons, IH, !filter_cons.
  destruct (decide (key y = u)), (decide (key x = u)); try done. lia.
Qed.

Lemma Array_sort_filter_key {A} (key : A → Z) (u : Z) (l : list A) :
  filter (λ a, key a = u) (Array_sort (descending key) l)
  = filter (λ a, key a = u) l.
Proof.
  induction l as [|x l IH]; [done|]. cbn [Array_sort].
  by rewrite sort_insert_filter_key, !filter_cons, IH.
Qed.

(** X17: tasks with the same [updatedAt] are listed in the order of the map
    (the order of their delegation): for every time [u], the listed tasks
    that were updated at [u] are the first of the matching tasks updated at
    [u], in map order. *)
Theorem listing_keeps_map_order_on_ties (st : Server)
    (args_status : option TaskStatus) (args_limit : Z) (u : Z) :
  let matching := match args_status with
                  | Some s => filter (λ t, status t = s) (Map_values st)
                  | None => Map_values st
                  end in
  filter (λ e, ts_updatedAt e = u)
    (lr_tasks (list_tasks args_status args_limit st))
  `prefix_of` summarize <$> filter (λ t, updatedAt t = u) matching.
Proof.
  intros matching. rewrite list_tasks_selection. fold matching.
  rewrite <- (fmap_filter_comm summarize (λ e, ts_updatedAt e = u)
                (λ t, updatedAt t = u)) by done.
  rewrite <- (Array_sort_filter_key updatedAt u matching).
  set (sorted := Array_sort (descending updatedAt) matching).
  unfold Array_slice.
  assert (drop (Z.to_nat (slice_index (Z.of_nat (length sorted)) 0)) sorted
          = sorted) as ->.
  { unfold slice_index. simpl.
    replace (Z.min 0 (Z.of_nat (length sorted))) with 0 by lia. done. }
  match goal with |- context [take ?n sorted] => generalize n end. intros n.
  rewrite <- (take_drop n sorted) at 2.
  rewrite filter_app, fmap_app. by apply prefix_app_r.
Qed.

(** ** Eviction and cancellation, seen by the callers *)

(** X18: an evicted task is reported as not found: once [cleanupOldTasks]
    has deleted a record, [check_status] and [cancel_task] on its identifier
    answer with the "Task not found" error, and [cancel_task] changes
    nothing. *)
Theorem evicted_task_is_not_found (st : Server) (r : string * TaskState)
    (now : Z) :
  NoDup (tasks st).*1 →
  r ∈ evicted st →
  check_status r.1 (cleanupOldTasks st)
  = CheckStatusError
      (mkErrorReply "Failed to check task status" r.1
         ("Task not found: " ++ r.1))
  ∧ cancel_task r.1 now (cleanupOldTasks st)
    = (cleanupOldTasks st,
       CancelError
         (mkErrorReply "Failed to cancel task" r.1 ("Task not found: " ++ r.1)))
  ∧ getTask (cleanupOldTasks st) r.1 = None.
Proof.
  intros Hkeys Hr.
  assert (Map_get (tasks (cleanupOldTasks st)) r.1 = None) as Hgone.
  { rewrite tasks_cleanupOldTasks_filter, Map_get_filter_keys by done.
    rewrite decide_True; [done|]. apply list_elem_of_fmap. by exists r. }
  unfold check_status, cancel_task, getTask, tasks_get, validateTaskExists.
  by rewrite Hgone.
Qed.

Lemma evicted_task_is_not_found_witness :
  NoDup (tasks (admitted "work" None "z" 200
                  (run DEFAULT_CONFIG (cancelled_delegations 101) init))).*1
  ∧ getTask
      (cleanupOldTasks
         (admitted "work" None "z" 200
            (run DEFAULT_CONFIG (cancelled_delegations 101) init)))
      "task-0"
    = None.
Proof.
  set (st := admitted "work" None "z" 200
               (run DEFAULT_CONFIG (cancelled_delegations 101) init)).
  assert (NoDup (tasks st).*1) as Hkeys
    by (apply (bool_decide_unpack _); vm_compute; exact I).
  split; [exact Hkeys|].
  assert (("task-0",
           mkTaskState "task-0" "work" None CANCELLED 0 0 (Some 0) None None
             None (Some 0)) ∈ evicted st) as Hr
    by (apply (bool_decide_unpack _); vm_compute; exact I).
  exact (proj2 (proj2 (evicted_task_is_not_found st _ 0 Hkeys Hr))).
Defined.

(** Distinct keys of the map refer to distinct task objects. *)
Lemma Map_set_locs_NoDup (m : TaskMap) k v :
  v ∉ m.*2 → NoDup m.*2 → NoDup (Map_set m k v).*2.
Proof.
  induction m as [|[k' v'] m IH]; cbn [Map_set]; intros Hv Hm.
  - apply NoDup_singleton.
  - rewrite fmap_cons in Hv, Hm. cbn [snd] in Hv, Hm.
    apply not_elem_of_cons in Hv as [Hne Hv].
    apply NoDup_cons in Hm as [Hv' Hm].
    destruct (String.eqb k' k); rewrite fmap_cons; cbn [snd];
      apply NoDup_cons.
    + split; [done|done].
    + split; [|by apply IH].
      intros (e & He1 & He2)%list_elem_of_fmap.
      apply Map_set_elem_of in He2 as [->|He2]; [done|].
      apply Hv'. apply list_elem_of_fmap. by exists e.
Qed.

Lemma locs_NoDup_sublist (m m' : TaskMap) :
  m' `sublist_of` m → NoDup m.*2 → NoDup m'.*2.
Proof.
  intros Hm Hnd. eapply sublist_NoDup; [exact Hnd|by apply fmap_sublist].
Qed.

Lemma locs_NoDup_step config ev st :
  wf st → NoDup (tasks st).*2 → NoDup (tasks (step config ev st).1).*2.
Proof.
  intros Hwf Hlocs.
  assert (∀ st', no_new_activity st st' → NoDup (tasks st').*2) as Hquiet.
  { intros st' [Hm _]. by apply (locs_NoDup_sublist (tasks st)). }
  destruct ev as [args_task args_context uuid now| | |taskId now|e now|now|];
    simpl.
  - case_match; [|done].
    destruct (Z.lt_ge_cases (getActiveTaskCount st) (maxConcurrentTasks config)).
    + rewrite delegate_accepted by done. simpl.
      eapply locs_NoDup_sublist; [apply tasks_cleanupOldTasks|].
      apply Map_set_locs_NoDup; [|done].
      intros (e & He1 & He2)%list_elem_of_fmap.
      pose proof (wf_tasks _ Hwf) as Hall.
      rewrite Forall_forall in Hall. specialize (Hall _ He2).
      cbv beta in Hall. unfold loc in *. lia.
    + by rewrite delegate_rejected.
  - by case_match.
  - by case_match.
  - case_match; [|done].
    pose proof (no_new_activity_cancel_task taskId now st) as Hc.
    apply Hquiet in Hc. by destruct (cancel_task _ _ _).
  - apply Hquiet, no_new_activity_timer.
  - apply Hquiet, no_new_activity_handleShutdown.
  - apply NoDup_nil_2.
Qed.

Lemma locs_NoDup_run config evs : NoDup (tasks (run config evs init)).*2.
Proof.
  induction evs as [|ev evs IH] using rev_ind; [apply NoDup_nil_2|].
  rewrite run_snoc. apply locs_NoDup_step; [apply wf_run, wf_init|done].
Qed.

(** An assignment to one task object changes the number of tasks of the map
    with a property by what it does to that object. *)
Lemma write_count (P : TaskState → Prop) `{!∀ t, Decision (P t)}
    l f st (m : TaskMap) :
  NoDup m.*2 → l ∈ m.*2 → (l < length (heap st))%nat →
  (length (filter P ((λ e, deref (write l f st) e.2) <$> m))
   + (if decide (P (deref st l)) then 1 else 0)
   = length (filter P ((λ e, deref st e.2) <$> m))
     + (if decide (P (f (deref st l))) then 1 else 0))%nat.
Proof.
  intros Hm Hl Hlen. induction m as [|[k v] m IH]; [by apply elem_of_nil in Hl|].
  rewrite fmap_cons in Hm, Hl. cbn [snd] in Hm, Hl.
  apply NoDup_cons in Hm as [Hv Hm].
  rewrite !fmap_cons, !filter_cons. cbn [snd].
  destruct (decide (l = v)) as [->|Hne].
  - rewrite deref_write_eq by done.
    assert ((λ e : string * loc, deref (write v f st) e.2) <$> m
            = (λ e : string * loc, deref st e.2) <$> m) as ->.
    { apply Forall_fmap_ext, Forall_forall. intros e He.
      apply deref_write_ne. intros ->. apply Hv, list_elem_of_fmap.
      by exists e. }
    destruct (decide (P (deref st v))), (decide (P (f (deref st v))));
      cbn [length]; lia.
  - apply elem_of_cons in Hl as [?|Hl]; [done|].
    rewrite deref_write_ne by done. specialize (IH Hm Hl).
    destruct (decide (P (deref st v))); cbn [length]; lia.
Qed.

(** X19: a successful cancellation frees exactly one admission slot: in
    every state the server reaches, when [cancel_task] answers with success
    the number of active tasks goes down by one, the number of terminal
    records goes up by one, the map keeps its size, and a [delegate] call
    that comes next is admitted. *)
Theorem cancel_task_frees_a_slot (config : LiaisonConfig) (evs : list Event)
    (taskId : string) (now : Z) (st1 : Server) (r : CancelDone) :
  0 ≤ maxConcurrentTasks config →
  cancel_task taskId now (run config evs init) = (st1, CancelOk r) →
  getActiveTaskCount st1 = getActiveTaskCount (run config evs init) - 1
  ∧ terminal_count st1 = terminal_count (run config evs init) + 1
  ∧ totalTasks (getStats st1) = totalTasks (getStats (run config evs init))
  ∧ ∀ args_task args_context uuid now',
      ∃ a, (delegate config args_task args_context uuid now' st1).2
           = DelegateOk a.
Proof.
  set (st := run config evs init). intros Hmax Hcancel.
  pose proof (wf_run config evs init wf_init) as Hwf. fold st in Hwf.
  pose proof (locs_NoDup_run config evs) as Hlocs. fold st in Hlocs.
  pose proof (run_active_count config evs Hmax) as Hcap. fold st in Hcap.
  destruct (Map_get (tasks st) taskId) as [l|] eqn:Hl;
    [|unfold cancel_task, validateTaskExists in Hcancel;
      by rewrite Hl in Hcancel].
  rewrite (cancel_task_found _ _ _ _ Hl) in Hcancel.
  case_decide as Hterminal; [done|]. cbv zeta in Hcancel.
  injection Hcancel as <- _.
  apply Map_get_elem_of in Hl.
  assert (l < length (heap st))%nat as Hlen.
  { pose proof (wf_tasks _ Hwf) as H.
    eapply Forall_forall in H; [|exact Hl]. done. }
  assert (l ∈ (tasks st).*2) as Hin
    by (apply list_elem_of_fmap; by exists (taskId, l)).
  assert (is_active (deref st l)) as Hactive
    by by apply dec_stable; rewrite not_active_terminal.
  pose proof (write_count is_active l (cancelled_at now) st (tasks st)
                Hlocs Hin Hlen) as Ha.
  pose proof (write_count is_terminal l (cancelled_at now) st (tasks st)
                Hlocs Hin Hlen) as Ht.
  rewrite decide_True in Ha by done.
  rewrite decide_False in Ha
    by (unfold is_active, cancelled_at; simpl; naive_solver).
  rewrite decide_False in Ht by done.
  rewrite decide_True in Ht
    by (unfold is_terminal, cancelled_at; simpl; naive_solver).
  assert (getActiveTaskCount (write l (cancelled_at now) st)
          = getActiveTaskCount st - 1) as Hcount.
  { unfold getActiveTaskCount, Map_values.
    change (tasks (write l (cancelled_at now) st)) with (tasks st). lia. }
  split; [exact Hcount|]. split.
  { unfold terminal_count, Map_values.
    change (tasks (write l (cancelled_at now) st)) with (tasks st). lia. }
  split.
  { unfold getStats, Map_values. simpl. by rewrite !length_fmap. }
  intros args_task args_context uuid now'.
  rewrite delegate_accepted by lia. by eexists.
Qed.

Lemma cancel_task_frees_a_slot_witness :
  0 ≤ maxConcurrentTasks DEFAULT_CONFIG
  ∧ cancel_task "task-a" 1 (run DEFAULT_CONFIG ping_run init)
    = (run DEFAULT_CONFIG (take 2 early_cancel_run) init,
       CancelOk (mkCancelDone "task-a" CANCELLED "Task has been cancelled" 1))
  ∧ getActiveTaskCount (run DEFAULT_CONFIG (take 2 early_cancel_run) init)
    = getActiveTaskCount (run DEFAULT_CONFIG ping_run init) - 1.
Proof.
  assert (0 ≤ maxConcurrentTasks DEFAULT_CONFIG) as Hmax by (simpl; lia).
  assert (cancel_task "task-a" 1 (run DEFAULT_CONFIG ping_run init)
          = (run DEFAULT_CONFIG (take 2 early_cancel_run) init,
             CancelOk
               (mkCancelDone "task-a" CANCELLED "Task has been cancelled" 1)))
    as Hcancel by reflexivity.
  split; [exact Hmax|]. split; [exact Hcancel|].
  exact (proj1 (cancel_task_frees_a_slot DEFAULT_CONFIG ping_run "task-a" 1
                  _ _ Hmax Hcancel)).
Defined.
